(** * remote-apis-sdks: the debugging tool, the flag-driven client
      construction and the chunking contract

    A shallow embedding of [go/pkg/tool/tool.go] and [go/pkg/flags/flags.go],
    together with models of the collaborators they call, and the properties
    the specification states about them. *)

From Stdlib Require Import ZArith Lia Ascii String List Strings.Byte Sorting.Sorted.
From stdpp Require Import base tactics option list gmap strings sorting pretty.

Open Scope Z_scope.

(** ** Digests, formatted values, errors and results *)

(** [digest.Digest]. *)
Record Digest : Type := { Hash : string; Size : Z }.

(** [repb.Digest]; the Go code holds it by pointer, [None] is nil. *)
Record pbDigest : Type := { pbHash : string; SizeBytes : Z }.

(** [time.Duration], a count of nanoseconds. *)
Definition Duration : Type := Z.

(** Values handed to a format string. *)
Inductive Val : Type :=
| VString (s : string)
| VDigest (d : Digest)
| VPbDigest (d : option pbDigest)
| VInt (z : Z)
| VSeconds (d : Duration).

(** Go's [error] values.  The first constructors are the error kinds of the
    specification (section 7); [Errorf] is an error built by [fmt.Errorf],
    kept as its format and arguments; [Failure] is an error handed back by
    a collaborator. *)
Inductive error : Type :=
| MalformedDigest
| InvalidConfig
| SeekError
| ChunkerExhausted
| OutOfOrderChunk
| IncompleteBlob
| MissingNode
| DepthExceeded
| Errorf (fmt : string) (args : list Val)
| Failure (msg : string).

(** A Go [(T, error)] return whose value is only read when the error is nil. *)
Inductive Result (A : Type) : Type :=
| OK (a : A)
| Err (e : error).
Arguments OK {A} a.
Arguments Err {A} e.

Definition rbind {A B} (r : Result A) (k : A -> Result B) : Result B :=
  match r with
  | OK a => k a
  | Err e => Err e
  end.

Definition isErr {A} (r : Result A) : bool :=
  match r with OK _ => false | Err _ => true end.

Declare Scope result_scope.
Delimit Scope result_scope with result.
Notation "'try' x <- r 'in' k" := (rbind r (fun x => k))
  (at level 10, x name, r at level 100, k at level 200) : result_scope.

(** ** Chunker *)

Module Chunker.
Section Chunker.
Local Open Scope result_scope.

(** The configured inline threshold of section 4.2. *)
Variable inlineThreshold : Z.

Record Chunk : Type := { Offset : Z; Data : list byte }.

Definition Length (c : Chunk) : Z := Z.of_nat (length (Data c)).

Record Chunker : Type := {
  contents : list byte;
  chunkSize : Z;
  offset : Z;
  exhausted : bool
}.

Definition totalSize (c : Chunker) : Z := Z.of_nat (length (contents c)).

(** Modelled from the spec: [forSource], the constructor of chunker.go,
    which is not among the sources.  The chunk size must be positive. *)
Definition forSource (source : list byte) (size : Z) : Result Chunker :=
  if size <=? 0 then Err InvalidConfig
  else OK {| contents := source; chunkSize := size; offset := 0;
             exhausted := false |}.

(** Modelled from the spec: [hasNext] of chunker.go. *)
Definition hasNext (c : Chunker) : bool := negb (exhausted c).

(** Modelled from the spec: [next] of chunker.go.  A blob below the inline
    threshold is one chunk holding the whole content; otherwise the chunk
    holds at most [chunkSize] bytes from the current offset, and the chunk
    that reaches the total size is the last one. *)
Definition next (c : Chunker) : Result (Chunk * Chunker) :=
  if exhausted c then Err ChunkerExhausted
  else if (offset c =? 0) && (totalSize c <? inlineThreshold) then
    OK ({| Offset := 0; Data := contents c |},
        {| contents := contents c; chunkSize := chunkSize c;
           offset := totalSize c; exhausted := true |})
  else
    let data := take (Z.to_nat (chunkSize c))
                     (drop (Z.to_nat (offset c)) (contents c)) in
    let off' := offset c + Z.of_nat (length data) in
    OK ({| Offset := offset c; Data := data |},
        {| contents := contents c; chunkSize := chunkSize c;
           offset := off'; exhausted := totalSize c <=? off' |}).

(** Modelled from the spec: [seek] and [reset] of chunker.go. *)
Definition seek (c : Chunker) (off : Z) : Result Chunker :=
  if (off <? 0) || (totalSize c <? off) then Err SeekError
  else OK {| contents := contents c; chunkSize := chunkSize c;
             offset := off; exhausted := false |}.

Definition reset (c : Chunker) : Result Chunker := seek c 0.

(** The chunk sequence of a chunker: [next] while [hasNext].  The loop is
    bounded by [fuel]; running out of it is an error. *)
Fixpoint drain (fuel : nat) (c : Chunker) : Result (list Chunk) :=
  if hasNext c then
    match fuel with
    | O => Err DepthExceeded
    | S fuel' =>
        try step <- next c in
        try rest <- drain fuel' (snd step) in
        OK (fst step :: rest)
    end
  else OK [].

Definition chunk (fuel : nat) (source : list byte) (size : Z)
  : Result (list Chunk) :=
  try c <- forSource source size in drain fuel c.

(** Modelled from the spec: reassembly.  A chunk that starts before the end
    of what the sink holds is out of order or overlapping. *)
Fixpoint writeChunks (sink : list byte) (cs : list Chunk)
  : Result (list byte) :=
  match cs with
  | [] => OK sink
  | c :: cs' =>
      if Offset c <? Z.of_nat (length sink) then Err OutOfOrderChunk
      else writeChunks (sink ++ Data c) cs'
  end.

Definition reassemble (total : Z) (cs : list Chunk) : Result (list byte) :=
  try sink <- writeChunks [] cs in
  if Z.of_nat (length sink) =? total then OK sink else Err IncompleteBlob.

End Chunker.
End Chunker.

(** ** Wire messages and values shared by the packages *)

(** A Go string of bytes and a [[]byte] hold the same data. *)
Definition newline : string := String (ascii_of_nat 10) EmptyString.
Definition tab : string := String (ascii_of_nat 9) EmptyString.

Record pbDuration : Type := { Seconds : Z; Nanos : Z }.

Record Action : Type := {
  CommandDigest : option pbDigest;
  InputRootDigest : option pbDigest; Timeout : option pbDuration
}.

Record pbCommand : Type := {
  Arguments : list string;
  EnvironmentVariables : list (string * string);
  pbOutputFiles : list string;
  OutputDirectories : list string;
  Platform : option (list (string * string));
  WorkingDirectory : string
}.

Record OutputFile : Type := { ofPath : string; ofDigest : option pbDigest }.

Record OutputDirectory : Type := {
  odPath : string;
  TreeDigest : option pbDigest
}.

Record ActionResult : Type := {
  arOutputFiles : list OutputFile;
  arOutputDirectories : list OutputDirectory;
  StdoutDigest : option pbDigest;
  StderrDigest : option pbDigest
}.

Record FileNode : Type := {
  fnName : string;
  fnDigest : option pbDigest;
  fnIsExecutable : bool
}.

Record DirectoryNode : Type := {
  dnName : string;
  dnDigest : option pbDigest
}.

Record SymlinkNode : Type := { snName : string; snTarget : string }.

Record Directory : Type := {
  Files : list FileNode;
  Directories : list DirectoryNode;
  Symlinks : list SymlinkNode
}.

Record Tree : Type := { Root : option Directory; Children : list Directory }.

(** [tree.Output], with the fields tool.go reads. *)
Record Output : Type := {
  oDigest : Digest;
  IsEmptyDirectory : bool;
  SymlinkTarget : string
}.

(** [command.Command] and its parts. *)
Record InputSpec : Type := {
  isEnvironmentVariables : gmap string string;
  Inputs : list string
}.

Record Identifiers : Type := {}.

Record Command : Type := {
  cInputSpec : InputSpec;
  cIdentifiers : Identifiers;
  WorkingDir : string;
  cOutputFiles : list string;
  OutputDirs : list string;
  cPlatform : gmap string string;
  Args : list string;
  ExecRoot : string;
  cTimeout : Duration
}.

Record ExecutionOptions : Type := {
  AcceptCached : bool;
  DownloadOutputs : bool
}.

Inductive ResultStatus : Type :=
| NonZeroExitResultStatus
| TimeoutResultStatus
| InterruptedResultStatus
| RemoteErrorResultStatus
| LocalErrorResultStatus
| OtherResultStatus.

Record CommandResult : Type := {
  Status : ResultStatus;
  ExitCode : Z;
  crErr : option error
}.

(** The kinds of message [ReadProto] is asked to fill in. *)
Inductive MsgKind : Type := KAction | KCommand | KTree.

Definition Msg (k : MsgKind) : Type :=
  match k with
  | KAction => Action
  | KCommand => pbCommand
  | KTree => Tree
  end.

(** The arguments of a log line. *)
Inductive Arg : Type :=
| AVal (v : Val)
| AErr (e : error).

(** [client.Opt] and [client.DialParams], as flags.go builds them. *)
Inductive Opt : Type :=
| client_CASConcurrency (n : Z)
| client_RPCTimeouts (timeouts : gmap string Duration)
| CallerOpt (tag : string).

Record DialParams : Type := {
  dpService : string;
  dpCASService : string;
  dpCredFile : string;
  dpUseApplicationDefault : bool;
  dpUseComputeEngine : bool;
  dpTransportCredsOnly : bool;
  dpTLSServerName : string;
  dpCertPool : list (list byte);
  dpMaxConcurrentRequests : Z;
  dpMaxConcurrentStreams : Z
}.

(** A connected [client.Client]. *)
Inductive RcClient : Type := Connected (instance : string) (opts : list Opt).

(** ** Effects

    Everything the code asks of the operating system, of the gRPC client and
    of the Go runtime is an effect; a program is a tree of effects whose
    branches are indexed by the answers.  A call that returns a value and
    an error answers with one or the other, its callers looking at the
    value only when there is no error; [ReadBlob] answers with both, the
    bytes being written by its caller whatever the error. *)

Inductive Eff : Type :=
(* os and io/ioutil *)
| OsRemoveAll (path : string)
| OsMkdir (path : string) (perm : Z)
| OsRemove (path : string)
| OsTempDir
| TempFile (dir pattern : string)
| FileClose (name : string)
| ReadFile (path : string)
| WriteFile (path : string) (data : list byte) (perm : Z)
(* the gRPC client *)
| CheckActionCache (d : pbDigest)
| ReadProto (k : MsgKind) (dg : Digest)
| ReadBlob (dg : Digest)
| ReadBlobToFile (dg : Digest) (path : string)
| DownloadActionOutputs (resPb : ActionResult) (path : string)
| GrpcDownloadDirectory (dg : Digest) (path : string)
| GetDirectoryTree (root : option pbDigest)
| RexecRun (cmd : Command) (opt : ExecutionOptions)
| NewClient (instance : string) (params : DialParams) (opts : list Opt)
(* the Go runtime, glog and outerr *)
| MapRange (keys : list string)
| TimeNow
| LogInfof (fmt : string) (args : list Arg)
| LogErrorf (fmt : string) (args : list Arg)
| OeWriteErr (fmt : string) (args : list Arg).

Definition Resp (e : Eff) : Type :=
  match e with
  | OsRemoveAll _ => option error
  | OsMkdir _ _ => option error
  | OsRemove _ => option error
  | OsTempDir => string
  | TempFile _ _ => Result string
  | FileClose _ => option error
  | ReadFile _ => Result (list byte)
  | WriteFile _ _ _ => option error
  | CheckActionCache _ => Result (option ActionResult)
  | ReadProto k _ => Result (Msg k)
  | ReadBlob _ => list byte * option error
  | ReadBlobToFile _ _ => Result Z
  | DownloadActionOutputs _ _ => option error
  | GrpcDownloadDirectory _ _ => option error
  | GetDirectoryTree _ => Result (list Directory)
  | RexecRun _ _ => CommandResult
  | NewClient _ _ _ => Result RcClient
  | MapRange _ => list string
  | TimeNow => string
  | LogInfof _ _ => unit
  | LogErrorf _ _ => unit
  | OeWriteErr _ _ => unit
  end.

(** Network and disk activity, as opposed to logging and the runtime. *)
Definition isDisk (e : Eff) : bool :=
  match e with
  | OsRemoveAll _ | OsMkdir _ _ | OsRemove _ | TempFile _ _ | FileClose _
  | ReadFile _ | WriteFile _ _ _ => true
  | _ => false
  end.

Definition isNetwork (e : Eff) : bool :=
  match e with
  | CheckActionCache _ | ReadProto _ _ | ReadBlob _ | ReadBlobToFile _ _
  | DownloadActionOutputs _ _ | GrpcDownloadDirectory _ _
  | GetDirectoryTree _ | RexecRun _ _ | NewClient _ _ _ => true
  | _ => false
  end.

Definition isActivity (e : Eff) : bool := isDisk e || isNetwork e.

(** The calls that fetch content into the destination. *)
Definition isDownload (e : Eff) : bool :=
  match e with
  | ReadBlob _ | ReadBlobToFile _ _ | DownloadActionOutputs _ _
  | GrpcDownloadDirectory _ _ => true
  | _ => false
  end.

Inductive Prog (A : Type) : Type :=
| Ret (a : A)
| Do (e : Eff) (k : Resp e -> Prog A).
Arguments Ret {A} a.
Arguments Do {A} e k.

Fixpoint bind {A B} (p : Prog A) (f : A -> Prog B) : Prog B :=
  match p with
  | Ret a => f a
  | Do e k => Do e (fun r => bind (k r) f)
  end.

Definition perform (e : Eff) : Prog (Resp e) := Do e Ret.

Declare Scope prog_scope.
Delimit Scope prog_scope with prog.
Notation "'let!' x := p 'in' k" := (bind p (fun x => k))
  (at level 10, x name, p at level 100, k at level 200) : prog_scope.
Notation "p ;;; k" := (bind p (fun _ => k))
  (at level 100, k at level 200, right associativity) : prog_scope.

(** A Go [for _, x := range xs] loop whose body never leaves the function. *)
Fixpoint forEach {X} (xs : list X) (body : X -> Prog unit) : Prog unit :=
  match xs with
  | [] => Ret tt
  | x :: xs' => bind (body x) (fun _ => forEach xs' body)
  end.

(** A Go [range] loop that updates local state and may [return err] from
    the enclosing function. *)
Fixpoint foldM {X S} (body : S -> X -> Prog (Result S)) (xs : list X) (s : S)
  : Prog (Result S) :=
  match xs with
  | [] => Ret (OK s)
  | x :: xs' =>
      bind (body s x) (fun r =>
        match r with
        | OK s' => foldM body xs' s'
        | Err e => Ret (Err e)
        end)
  end.

(** Sequencing of calls that return [(T, error)]: an error returns from the
    enclosing function. *)
Definition ebind {A B} (p : Prog (Result A)) (k : A -> Prog (Result B))
  : Prog (Result B) :=
  bind p (fun r =>
    match r with
    | OK a => k a
    | Err e => Ret (Err e)
    end).

Notation "'let?' x := p 'in' k" := (ebind p (fun x => k))
  (at level 10, x name, p at level 100, k at level 200) : prog_scope.

(** A Go [error] return as a result. *)
Definition ofErr (e : option error) : Result unit :=
  match e with
  | None => OK tt
  | Some e => Err e
  end.

(** An observed step: the effect and the answer it got. *)
Record Event : Type := { ev : Eff; resp : Resp ev }.

(** A handler answers effects over a state; [exec] runs a program under it
    and returns the result, the final state, and the steps taken together
    with the state each one started from. *)
Definition Handler (W : Type) : Type := forall e : Eff, W -> Resp e * W.

Fixpoint exec {A W} (h : Handler W) (p : Prog A) (w : W)
  : A * W * list (Event * W) :=
  match p with
  | Ret a => (a, w, [])
  | Do e k =>
      let rw := h e w in
      let res := exec h (k (fst rw)) (snd rw) in
      (fst (fst res), snd (fst res),
       ({| ev := e; resp := fst rw |}, w) :: snd res)
  end.

Definition result {A W} (x : A * W * list (Event * W)) : A := fst (fst x).
Definition final {A W} (x : A * W * list (Event * W)) : W := snd (fst x).
Definition steps {A W} (x : A * W * list (Event * W)) : list (Event * W) :=
  snd x.

(** The Go runtime iterates a map over each of its keys once, in an order
    of its choosing. *)
Definition fairRange {W} (h : Handler W) : Prop :=
  forall keys w, fst (h (MapRange keys) w) ≡ₚ keys.

(** ** fmt and sort *)

(** Modelled from the spec: [String()] of digest.Digest, the canonical
    textual form [<hash>/<size>]. *)
Definition Digest_String (d : Digest) : string :=
  Hash d +:+ "/" +:+ pretty (Size d).

(** What [%v] (and [%s], [%d]) print for a value.  Only strings and digests
    reach the displayed texts; the other two cases approximate Go's
    rendering. *)
Definition render (v : Val) : string :=
  match v with
  | VString s => s
  | VDigest d => Digest_String d
  | VPbDigest None => "<nil>"
  | VPbDigest (Some d) => pbHash d +:+ "/" +:+ pretty (SizeBytes d)
  | VInt z => pretty z
  | VSeconds d => pretty (d / 1000000000)
  end.

Definition isDigit (c : ascii) : bool :=
  (48 <=? nat_of_ascii c)%nat && (nat_of_ascii c <=? 57)%nat.

(** [fmt.Sprintf] for the verbs the code uses: a percent sign, optional
    digits, and a verb letter that consumes the next argument. *)
Fixpoint sprintfFrom (inVerb : bool) (fmt : string) (args : list Val)
  : string :=
  match fmt with
  | EmptyString => EmptyString
  | String c rest =>
      if inVerb then
        if isDigit c then sprintfFrom true rest args
        else
          match args with
          | a :: args' => render a +:+ sprintfFrom false rest args'
          | [] => "%!" +:+ String c ("(MISSING)" +:+ sprintfFrom false rest [])
          end
      else if Ascii.eqb c "%" then sprintfFrom true rest args
      else String c (sprintfFrom false rest args)
  end.

Definition Sprintf (fmt : string) (args : list Val) : string :=
  sprintfFrom false fmt args.

(** [sort.Strings]: ascending in the byte-wise order of Go strings. *)
Definition sortStrings (l : list string) : list string :=
  merge_sort String.le l.

(** [strings.Join]. *)
Definition stringsJoin (elems : list string) (sep : string) : string :=
  String.concat sep elems.

(** ** Package tool *)

Module Tool.

(** The functions of the packages digest and tree, and of the Go libraries,
    that tool.go calls without effect on the outside world. *)
Record Env : Type := {
  NewFromString : string -> Result Digest;
  NewFromProto : option pbDigest -> Result Digest;
  FlattenTree : Tree -> string -> Result (gmap string Output);
  ptypesDuration : pbDuration -> Result Duration;
  filepathJoin : string -> string -> string
}.

Section Tool.
Variable env : Env.
Local Open Scope prog_scope.

Definition stdoutFile : string := "stdout".
Definition stderrFile : string := "stderr".

Definition getActionResult (actionDigest : string)
  : Prog (Result ActionResult) :=
  let? acDg := Ret (NewFromString env actionDigest) in
  let d := {| pbHash := Hash acDg; SizeBytes := Size acDg |} in
  let? resPb := perform (CheckActionCache d) in
  match resPb with
  | None =>
      Ret (Err (Errorf "action digest %v not found in cache"
                  [VPbDigest (Some d)]))
  | Some resPb => Ret (OK resPb)
  end.

Definition commandFromREProto (cmdPb : pbCommand) : Command :=
  let cmd := {|
    cInputSpec := {| isEnvironmentVariables := ∅; Inputs := [] |};
    cIdentifiers := Build_Identifiers;
    WorkingDir := WorkingDirectory cmdPb;
    cOutputFiles := pbOutputFiles cmdPb;
    OutputDirs := OutputDirectories cmdPb;
    cPlatform := ∅;
    Args := Arguments cmdPb;
    ExecRoot := "";
    cTimeout := 0
  |} in
  let envs :=
    foldl (fun m ev => <[fst ev := snd ev]> m)
          (isEnvironmentVariables (cInputSpec cmd))
          (EnvironmentVariables cmdPb) in
  let plat :=
    foldl (fun m pt => <[fst pt := snd pt]> m) (cPlatform cmd)
          (default [] (Platform cmdPb)) in
  {| cInputSpec := {| isEnvironmentVariables := envs;
                      Inputs := Inputs (cInputSpec cmd) |};
     cIdentifiers := cIdentifiers cmd;
     WorkingDir := WorkingDir cmd;
     cOutputFiles := cOutputFiles cmd;
     OutputDirs := OutputDirs cmd;
     cPlatform := plat;
     Args := Args cmd;
     ExecRoot := ExecRoot cmd;
     cTimeout := cTimeout cmd |}.

(** The line [flattenTree] prints for one output. *)
Definition outputLine (path : string) (output : Output) : string :=
  if IsEmptyDirectory output then
    Sprintf ("%v: [Directory digest: %v]" +:+ newline)
      [VString path; VDigest (oDigest output)]
  else if negb (String.eqb (SymlinkTarget output) "") then
    Sprintf ("%v: [Symlink digest: %v, Symlink Target: %v]" +:+ newline)
      [VString path; VDigest (oDigest output);
       VString (SymlinkTarget output)]
  else
    Sprintf ("%v: [File digest: %v]" +:+ newline)
      [VString path; VDigest (oDigest output)].

Definition flattenTree (t : Tree) : Prog (Result (string * list string)) :=
  let? outputs := Ret (FlattenTree env t "") in
  (* Sort the values by path. *)
  let! order := perform (MapRange (map_to_list outputs).*1) in
  let paths := foldl (fun paths path => paths ++ [path]) [] order in
  let paths := sortStrings paths in
  let res :=
    foldl (fun res path =>
             match outputs !! path with
             | Some output => res +:+ outputLine path output
             | None => res
             end) "" paths in
  Ret (OK (res, paths)).

Definition getInputTree (root : option pbDigest)
  : Prog (Result (string * list string)) :=
  let? dg := Ret (NewFromProto env root) in
  let res := Sprintf "[Root directory digest: %v]" [VDigest dg] in
  let? dirs := perform (GetDirectoryTree root) in
  match dirs with
  | [] =>
      Ret (Err (Errorf "Empty directories returned by GetTree for %v"
                  [VDigest dg]))
  | dirs0 :: _ =>
      let t := {| Root := Some dirs0; Children := dirs |} in
      let? flat := flattenTree t in
      let res := res +:+ newline in
      let res := res +:+ fst flat in
      Ret (OK (res, snd flat))
  end.

Definition getOutputs (actionRes : ActionResult) : Prog (Result string) :=
  let res := "Output Files:" +:+ newline +:+ "=============" +:+ newline in
  let? res :=
    foldM (fun res of_ =>
             let? dg := Ret (NewFromProto env (ofDigest of_)) in
             Ret (OK (res +:+ Sprintf ("%v, digest: %v" +:+ newline)
                                [VString (ofPath of_); VDigest dg])))
          (arOutputFiles actionRes) res in
  let res := res +:+ newline +:+ "Output Files From Directories:"
                 +:+ newline +:+ "=================" +:+ newline in
  let? res :=
    foldM (fun res od =>
             let treeDigest := TreeDigest od in
             let? dg := Ret (NewFromProto env treeDigest) in
             let? outDirTree := perform (ReadProto KTree dg) in
             let? flat := flattenTree outDirTree in
             let res := res +:+ newline in
             Ret (OK (res +:+ fst flat)))
          (arOutputDirectories actionRes) res in
  Ret (OK res).

(** ReexecuteAction reexecutes the action remotely, optionally overriding
    the inputs with the ones provided at the inputRoot path. *)
Definition ReexecuteAction (actionDigest inputRoot : string)
  : Prog (Result unit) :=
  let? acDg := Ret (NewFromString env actionDigest) in
  let? actionProto := perform (ReadProto KAction acDg) in
  let? cmdDg := Ret (NewFromProto env (CommandDigest actionProto)) in
  perform (LogInfof "Reading command from action digest.." []) ;;;
  let? commandProto := perform (ReadProto KCommand cmdDg) in
  let? tree := getInputTree (InputRootDigest actionProto) in
  let inputPaths := snd tree in
  let? inputRoot :=
    (if String.eqb inputRoot "" then
       let! curTime := perform TimeNow in
       let! tmp := perform OsTempDir in
       let inputRoot :=
         filepathJoin env tmp (Hash acDg +:+ "_" +:+ curTime) in
       let? dg := Ret (NewFromProto env (InputRootDigest actionProto)) in
       perform (LogInfof
                  "Fetching input tree from input root digest %s into %s"
                  [AVal (VDigest dg); AVal (VString inputRoot)]) ;;;
       let! err := perform (GrpcDownloadDirectory dg inputRoot) in
       let? _ := Ret (ofErr err) in
       Ret (OK inputRoot)
     else Ret (OK inputRoot)) in
  (* Construct Command object. *)
  let cmd := commandFromREProto commandProto in
  let cmd := {|
    cInputSpec :=
      {| isEnvironmentVariables :=
           isEnvironmentVariables (cInputSpec cmd);
         Inputs := inputPaths |};
    cIdentifiers := cIdentifiers cmd;
    WorkingDir := WorkingDir cmd;
    cOutputFiles := cOutputFiles cmd;
    OutputDirs := OutputDirs cmd;
    cPlatform := cPlatform cmd;
    Args := Args cmd;
    ExecRoot := inputRoot;
    cTimeout := cTimeout cmd |} in
  let? cmd :=
    match Timeout actionProto with
    | Some timeout =>
        let? tm := Ret (ptypesDuration env timeout) in
        Ret (OK {| cInputSpec := cInputSpec cmd;
                   cIdentifiers := cIdentifiers cmd;
                   WorkingDir := WorkingDir cmd;
                   cOutputFiles := cOutputFiles cmd;
                   OutputDirs := OutputDirs cmd;
                   cPlatform := cPlatform cmd;
                   Args := Args cmd;
                   ExecRoot := ExecRoot cmd;
                   cTimeout := tm |})
    | None => Ret (OK cmd)
    end in
  let opt := {| AcceptCached := false; DownloadOutputs := true |} in
  let! res := perform (RexecRun cmd opt) in
  match Status res with
  | NonZeroExitResultStatus =>
      perform (OeWriteErr
                 ("Remote action FAILED with exit code %d." +:+ newline)
                 [AVal (VInt (ExitCode res))])
  | TimeoutResultStatus =>
      perform (OeWriteErr
                 ("Remote action TIMED OUT after %0f seconds." +:+ newline)
                 [AVal (VSeconds (cTimeout cmd))])
  | InterruptedResultStatus =>
      perform (OeWriteErr
                 ("Remote execution was interrupted." +:+ newline) [])
  | RemoteErrorResultStatus =>
      perform (OeWriteErr ("Remote execution error: %v." +:+ newline)
                 (match crErr res with
                  | Some e => [AErr e]
                  | None => [AVal (VString "<nil>")]
                  end))
  | LocalErrorResultStatus =>
      perform (OeWriteErr ("Local error: %v." +:+ newline)
                 (match crErr res with
                  | Some e => [AErr e]
                  | None => [AVal (VString "<nil>")]
                  end))
  | OtherResultStatus => Ret tt
  end ;;;
  Ret (ofErr (crErr res)).

(** DownloadActionResult downloads the action result of the given action
    digest if it exists in the remote cache. *)
Definition DownloadActionResult (actionDigest pathPrefix : string)
  : Prog (Result unit) :=
  let? resPb := getActionResult actionDigest in
  perform (LogInfof "Cleaning contents of %v."
             [AVal (VString pathPrefix)]) ;;;
  perform (OsRemoveAll pathPrefix) ;;;
  perform (OsMkdir pathPrefix 493) ;;;
  perform (LogInfof "Downloading action results of %v to %v."
             [AVal (VString actionDigest); AVal (VString pathPrefix)]) ;;;
  let! err := perform (DownloadActionOutputs resPb pathPrefix) in
  match err with
  | Some err =>
      perform (LogErrorf "Failed downloading action outputs: %v."
                 [AErr err])
  | None => Ret tt
  end ;;;
  let outMsgs : gmap string (option pbDigest) :=
    <[filepathJoin env pathPrefix stderrFile := StderrDigest resPb]>
      (<[filepathJoin env pathPrefix stdoutFile := StdoutDigest resPb]>
         ∅) in
  let! order := perform (MapRange (map_to_list outMsgs).*1) in
  forEach order (fun path =>
    match outMsgs !! path with
    | None | Some None => Ret tt
    | Some (Some reDg) =>
        let dg := {| Hash := pbHash reDg; Size := SizeBytes reDg |} in
        perform (LogInfof "Downloading stdout/stderr to %v."
                   [AVal (VString path)]) ;;;
        let! r := perform (ReadBlob dg) in
        let bytes := fst r in
        let err := snd r in
        match err with
        | Some _ =>
            perform (LogErrorf
                       "Unable to read blob for %v with digest %v."
                       [AVal (VString path); AVal (VDigest dg)])
        | None => Ret tt
        end ;;;
        let! werr := perform (WriteFile path bytes 420) in
        match werr with
        | Some _ =>
            perform (LogErrorf
                       "Unable to write output of digest %v to file %v."
                       [AVal (VDigest dg); AVal (VString path)])
        | None => Ret tt
        end
    end) ;;;
  perform (LogInfof "Successfully downloaded results of %v to %v."
             [AVal (VString actionDigest); AVal (VString pathPrefix)]) ;;;
  Ret (OK tt).

(** DownloadBlob downloads a blob from the remote cache into the specified
    path.  If the path is empty, it writes the contents to stdout
    instead.  [download] is the function body from the digest parsing
    on, at the values [outputToStdout] and [path] have by then; the
    deferred [os.Remove] runs when that body has returned. *)
Definition DownloadBlob (blobDigest path : string) : Prog (Result string) :=
  let download (outputToStdout : bool) (path : string)
    : Prog (Result string) :=
    let? dg := Ret (NewFromString env blobDigest) in
    perform (LogInfof "Downloading blob of %v to %v."
               [AVal (VDigest dg); AVal (VString path)]) ;;;
    let? _ := perform (ReadBlobToFile dg path) in
    if negb outputToStdout then Ret (OK "")
    else
      let? contents := perform (ReadFile path) in
      Ret (OK (string_of_list_byte contents)) in
  if String.eqb path "" then
    (* Create a temp file. *)
    let! tmp := perform OsTempDir in
    let? tmpFile := perform (TempFile tmp "") in
    let! cerr := perform (FileClose tmpFile) in
    let? _ := Ret (ofErr cerr) in
    let path := tmpFile in
    let! res := download true path in
    perform (OsRemove path) ;;;
    Ret res
  else download false path.

(** DownloadDirectory downloads a an input root from the remote cache into
    the specified path. *)
Definition DownloadDirectory (rootDigest path : string)
  : Prog (Result unit) :=
  perform (LogInfof "Cleaning contents of %v." [AVal (VString path)]) ;;;
  perform (OsRemoveAll path) ;;;
  perform (OsMkdir path 493) ;;;
  let? dg := Ret (NewFromString env rootDigest) in
  perform (LogInfof "Downloading input root %v to %v."
             [AVal (VDigest dg); AVal (VString path)]) ;;;
  let! err := perform (GrpcDownloadDirectory dg path) in
  Ret (ofErr err).

(** ShowAction parses and displays an action with its corresponding
    command. *)
Definition ShowAction (actionDigest : string) : Prog (Result string) :=
  let showActionRes := "" in
  let? resPb := getActionResult actionDigest in
  let? acDg := Ret (NewFromString env actionDigest) in
  let? actionProto := perform (ReadProto KAction acDg) in
  let? cmdDg := Ret (NewFromProto env (CommandDigest actionProto)) in
  let showActionRes :=
    showActionRes +:+ "Command" +:+ newline +:+ "========" +:+ newline in
  let showActionRes :=
    showActionRes
      +:+ Sprintf ("Command Digest: %v" +:+ newline) [VDigest cmdDg] in
  perform (LogInfof "Reading command from action digest.." []) ;;;
  let? commandProto := perform (ReadProto KCommand cmdDg) in
  let cmdStr := stringsJoin (Arguments commandProto) " " in
  let showActionRes :=
    showActionRes
      +:+ Sprintf (tab +:+ "%v" +:+ newline) [VString cmdStr] in
  perform (LogInfof "Fetching input tree from input root digest.." []) ;;;
  let? tree := getInputTree (InputRootDigest actionProto) in
  let inpTree := fst tree in
  let showActionRes :=
    showActionRes +:+ newline +:+ "Inputs" +:+ newline +:+ "======"
                  +:+ newline in
  let showActionRes := showActionRes +:+ inpTree in
  perform (LogInfof "Fetching output tree from action result.." []) ;;;
  let? outs := getOutputs resPb in
  let showActionRes := showActionRes +:+ newline in
  let showActionRes := showActionRes +:+ outs in
  Ret (OK showActionRes).

End Tool.
End Tool.

(** ** Package flags *)

Module Flags.

(** The values of the command-line flags. *)
Record FlagValues : Type := {
  CredFile : string;
  UseApplicationDefaultCreds : bool;
  UseGCECredentials : bool;
  UseRPCCredentials : bool;
  Service : string;
  CASService : string; Instance : string;
  CASConcurrency : Z;
  MaxConcurrentRequests : Z;
  MaxConcurrentStreams : Z;
  TLSServerName : string;
  TLSCACert : string;
  RPCTimeouts : gmap string string
}.

(** What flags.go takes from the package client and from the Go
    libraries. *)
Record Env : Type := {
  DefaultRPCTimeouts : gmap string Duration;
  ParseDuration : string -> Result Duration;
  (* the certificates [AppendCertsFromPEM] finds in a PEM file *)
  certsFromPEM : list byte -> list (list byte)
}.

(** A pure Go [range] loop that may [return nil, err]. *)
Fixpoint foldResult {X S} (body : S -> X -> Result S) (xs : list X) (s : S)
  : Result S :=
  match xs with
  | [] => OK s
  | x :: xs' =>
      match body s x with
      | OK s' => foldResult body xs' s'
      | Err e => Err e
      end
  end.

Definition uint32 (z : Z) : Z := z mod 2 ^ 32.

Section Flags.
Variable env : Env.
Variable fl : FlagValues.
Local Open Scope prog_scope.

(** NewClientFromFlags connects to a remote execution service and returns
    a client suitable for higher-level functionality. *)
Definition NewClientFromFlags (opts : list Opt) : Prog (Result RcClient) :=
  let opts := opts ++ [client_CASConcurrency (CASConcurrency fl)] in
  let? opts :=
    (if (0 <? size (RPCTimeouts fl))%nat then
       let timeouts : gmap string Duration := ∅ in
       let! order :=
         perform (MapRange (map_to_list (DefaultRPCTimeouts env)).*1) in
       let timeouts :=
         foldl (fun timeouts rpc =>
                  match DefaultRPCTimeouts env !! rpc with
                  | Some d => <[rpc := d]> timeouts
                  | None => timeouts
                  end) timeouts order in
       (* Override the defaults with flags, but do not replace. *)
       let! order := perform (MapRange (map_to_list (RPCTimeouts fl)).*1) in
       let? timeouts :=
         Ret (foldResult
                (fun timeouts rpc =>
                   match RPCTimeouts fl !! rpc with
                   | Some s =>
                       match ParseDuration env s with
                       | OK d => OK (<[rpc := d]> timeouts)
                       | Err err => Err err
                       end
                   | None => OK timeouts
                   end) order timeouts) in
       Ret (OK (opts ++ [client_RPCTimeouts timeouts]))
     else Ret (OK opts)) in
  let certPool : list (list byte) := [] in
  let? certPool :=
    (if negb (String.eqb (TLSCACert fl) "") then
       let? ca := perform (ReadFile (TLSCACert fl)) in
       match certsFromPEM env ca with
       | [] =>
           Ret (Err (Errorf "failed to load TLS CA certificates from %s"
                       [VString (TLSCACert fl)]))
       | certs => Ret (OK (certPool ++ certs))
       end
     else Ret (OK certPool)) in
  perform (NewClient (Instance fl) {|
    dpService := Service fl;
    dpCASService := CASService fl;
    dpCredFile := CredFile fl;
    dpUseApplicationDefault := UseApplicationDefaultCreds fl;
    dpUseComputeEngine := UseGCECredentials fl;
    dpTransportCredsOnly := negb (UseRPCCredentials fl);
    dpTLSServerName := TLSServerName fl;
    dpCertPool := certPool;
    dpMaxConcurrentRequests := uint32 (MaxConcurrentRequests fl);
    dpMaxConcurrentStreams := uint32 (MaxConcurrentStreams fl)
  |} opts).

End Flags.
End Flags.

(** ** The file system the os calls act on

    Paths are keys of a flat map and are compared as written: a path
    names an entry only in the spelling the map has it under.  The calls
    behave as on a file system whose permissions and devices never fail
    them.  What is stated of the os calls whatever they answer is stated
    on the steps of a run, for every handler, and not on this model. *)

Module FS.

Inductive Node : Type :=
| File (data : list byte)
| Dir.

(** [path] is [dir] or lies below it. *)
Definition under (dir path : string) : bool :=
  String.eqb dir path || String.prefix (dir +:+ "/") path.

Fixpoint dropToSlash (cs : list ascii) : list ascii :=
  match cs with
  | [] => []
  | c :: cs' => if Ascii.eqb c "/" then cs else dropToSlash cs'
  end.

(** The directory a path is an entry of: [None] if the path has no slash. *)
Definition dirName (path : string) : option string :=
  match dropToSlash (rev (list_ascii_of_string path)) with
  | [] => None
  | _ :: r => Some (string_of_list_ascii (rev r))
  end.

(** The directory a new entry goes into exists. *)
Definition parentOk (fs : gmap string Node) (path : string) : bool :=
  match dirName path with
  | None => true
  | Some d =>
      String.eqb d "" ||
      match fs !! d with
      | Some Dir => true
      | _ => false
      end
  end.

Definition removeAll (path : string) (fs : gmap string Node)
  : gmap string Node :=
  if String.eqb path "" then fs
  else filter (fun kv => under path (fst kv) = false) fs.

Definition mkdir (path : string) (fs : gmap string Node)
  : option error * gmap string Node :=
  if String.eqb path "" then (Some (Failure "mkdir: no such file"), fs)
  else
    match fs !! path with
    | Some _ => (Some (Failure "mkdir: file exists"), fs)
    | None =>
        if parentOk fs path then (None, <[path := Dir]> fs)
        else (Some (Failure "mkdir: no such file or directory"), fs)
    end.

Definition hasChildren (path : string) (fs : gmap string Node) : bool :=
  bool_decide
    (Exists (fun q => q <> path /\ under path q = true) (map_to_list fs).*1).

Definition remove (path : string) (fs : gmap string Node)
  : option error * gmap string Node :=
  match fs !! path with
  | Some (File _) => (None, delete path fs)
  | Some Dir =>
      if hasChildren path fs
      then (Some (Failure "remove: directory not empty"), fs)
      else (None, delete path fs)
  | None => (Some (Failure "remove: no such file or directory"), fs)
  end.

Definition readFile (path : string) (fs : gmap string Node)
  : Result (list byte) :=
  match fs !! path with
  | Some (File data) => OK data
  | Some Dir => Err (Failure "read: is a directory")
  | None => Err (Failure "open: no such file or directory")
  end.

Definition writeFile (path : string) (data : list byte)
    (fs : gmap string Node) : option error * gmap string Node :=
  match fs !! path with
  | Some Dir => (Some (Failure "open: is a directory"), fs)
  | Some (File _) => (None, <[path := File data]> fs)
  | None =>
      if parentOk fs path then (None, <[path := File data]> fs)
      else (Some (Failure "open: no such file or directory"), fs)
  end.

(** Every entry lies in a directory that exists, and the empty string names
    nothing. *)
Definition wellFormed (fs : gmap string Node) : Prop :=
  fs !! "" = None /\
  map_Forall (fun path _ => parentOk fs path = true) fs.

(** [path] is a directory with nothing in it. *)
Definition emptyDirAt (fs : gmap string Node) (path : string) : Prop :=
  fs !! path = Some Dir /\
  forall q, under path q = true -> q <> path -> fs !! q = None.

End FS.

(** The world of a run: the local file system, and whatever state the
    remote side and the runtime keep. *)
Record OsWorld (S : Type) : Type := { fs : gmap string FS.Node; remote : S }.
Arguments fs {S} _.
Arguments remote {S} _.
Arguments Build_OsWorld {S} _ _.

(** The calls of the gRPC client that write to the local disk. *)
Definition clientWritesDisk (e : Eff) : bool :=
  match e with
  | ReadBlobToFile _ _ | DownloadActionOutputs _ _
  | GrpcDownloadDirectory _ _ | RexecRun _ _ => true
  | _ => false
  end.

(** The os calls act on the file system; everything else is answered by an
    oracle, which stands for the remote side and the runtime.  Only the
    client calls that write to disk may change the file system; the name of
    a temporary file is the oracle's choice. *)
Definition osHandler {S} (oracle : Handler (OsWorld S))
  : Handler (OsWorld S) :=
  fun e w =>
    let onFs (r : option error * gmap string FS.Node) :=
      (fst r, {| fs := snd r; remote := remote w |}) in
    match e return Resp e * OsWorld S with
    | OsRemoveAll path => onFs (None, FS.removeAll path (fs w))
    | OsMkdir path _ => onFs (FS.mkdir path (fs w))
    | OsRemove path => onFs (FS.remove path (fs w))
    | TempFile dir pattern =>
        let r := oracle (TempFile dir pattern) w in
        match fst r with
        | OK name =>
            match fs w !! name with
            | None =>
                (OK name, {| fs := <[name := FS.File []]> (fs w);
                             remote := remote (snd r) |})
            | Some _ =>
                (Err (Failure "tempfile: file exists"),
                 {| fs := fs w; remote := remote (snd r) |})
            end
        | Err err => (Err err, {| fs := fs w; remote := remote (snd r) |})
        end
    | FileClose _ => (None, w)
    | ReadFile path => (FS.readFile path (fs w), w)
    | WriteFile path data _ => onFs (FS.writeFile path data (fs w))
    | e' =>
        let r := oracle e' w in
        if clientWritesDisk e' then r
        else (fst r, {| fs := fs w; remote := remote (snd r) |})
    end.

(** The file system as it was when the first download call was made. *)
Definition firstDownload {W} (tr : list (Event * W)) : option W :=
  snd <$> List.find (fun s => isDownload (ev (fst s))) tr.

(** The effects of a run that are network or disk activity. *)
Definition activity {W} (tr : list (Event * W)) : list Eff :=
  filter (fun e => isActivity e = true) (map (fun s => ev (fst s)) tr).

(** ** Reading the steps of a run *)

Definition isSome {A} (o : option A) : bool :=
  match o with Some _ => true | None => false end.

(** A download step of [DownloadActionResult] that failed. *)
Definition isFailedDownload (s : Event) : bool :=
  match ev s as e return Resp e -> bool with
  | DownloadActionOutputs _ _ => fun r => isSome r
  | ReadBlob _ => fun r => isSome (snd r)
  | WriteFile _ _ _ => fun r => isSome r
  | _ => fun _ => false
  end (resp s).

Definition isErrorLog (s : Event) : bool :=
  match ev s with
  | LogErrorf _ _ => true
  | _ => false
  end.

(** Every failed download step is followed at once by a line in the error
    log. *)
Fixpoint failuresLogged (tr : list Event) : bool :=
  match tr with
  | [] => true
  | s :: rest =>
      (if isFailedDownload s
       then match rest with
            | l :: _ => isErrorLog l
            | [] => false
            end
       else true)
      && failuresLogged rest
  end.

(** The events of a run, without the states. *)
Definition events {A W} (x : A * W * list (Event * W)) : list Event :=
  map fst (steps x).

(** The remote side holds [blob] under [dg]: a read of it into a file
    succeeds and leaves the blob in that file. *)
Definition servesBlob {S} (oracle : Handler (OsWorld S)) (dg : Digest)
    (blob : list byte) : Prop :=
  forall path w,
    isErr (fst (oracle (ReadBlobToFile dg path) w)) = false /\
    fs (snd (oracle (ReadBlobToFile dg path) w))
      = <[path := FS.File blob]> (fs w).

(** The operating system names every temporary file [name]. *)
Definition namesTempFile {S} (oracle : Handler (OsWorld S)) (name : string)
  : Prop :=
  forall dir pattern w, fst (oracle (TempFile dir pattern) w) = OK name.

(** The lines of a display, one after the other. *)
Definition catLines (ls : list string) : string :=
  foldr String.append "" ls.

(** The lines [flattenTree] prints for the given paths of a flattened
    tree. *)
Definition linesOf (outputs : gmap string Output) (paths : list string)
  : list string :=
  omap (fun path => Tool.outputLine path <$> outputs !! path) paths.

(** An answer of [GetDirectoryTree] from which no tree can be had: an error,
    no nodes at all, or nodes that do not flatten. *)
Definition unresolved (env : Tool.Env) (r : Result (list Directory)) : Prop :=
  match r with
  | Err _ => True
  | OK [] => True
  | OK (dirs0 :: dirs) =>
      isErr (Tool.FlattenTree env
               {| Root := Some dirs0; Children := dirs0 :: dirs |} "") = true
  end.

(** A program that returns an error from every state. *)
Definition fails {A W} (h : Handler W) (p : Prog (Result A)) : Prop :=
  forall w, isErr (result (exec h p w)) = true.

(** The duration an override string stands for. *)
Definition parsed (env : Flags.Env) (s : string) : option Duration :=
  match Flags.ParseDuration env s with
  | OK d => Some d
  | Err _ => None
  end.

(** The options of the [NewClient] calls among the steps of a run. *)
Definition dialled {W} (tr : list (Event * W)) : list (list Opt) :=
  omap (fun s => match ev (fst s) with
                 | NewClient _ _ o => Some o
                 | _ => None
                 end) tr.

(** The timeout map the code arrives at: each override, parsed, and the
    default of every RPC that has no override. *)
Definition effective (env : Flags.Env) (fl : Flags.FlagValues)
    (timeouts : gmap string Duration) : Prop :=
  forall rpc,
    timeouts !! rpc =
    match Flags.RPCTimeouts fl !! rpc with
    | Some s => parsed env s
    | None => Flags.DefaultRPCTimeouts env !! rpc
    end.

(** Every failed download step of a program is logged, from every state. *)
Definition logged {A W} (h : Handler W) (p : Prog A) : Prop :=
  forall w, failuresLogged (events (exec h p w)) = true.

(** ** Package digest *)

Module DigestPkg.

Definition isHex (c : ascii) : bool :=
  let n := nat_of_ascii c in
  ((48 <=? n)%nat && (n <=? 57)%nat) || ((97 <=? n)%nat && (n <=? 102)%nat).

(** The length of a hash in its textual form (SHA-256 in hexadecimal). *)
Definition hashLength : nat := 64.

Fixpoint splitAt (sep : ascii) (cur : list ascii) (cs : list ascii)
  : list (list ascii) :=
  match cs with
  | [] => [rev cur]
  | c :: cs' =>
      if Ascii.eqb c sep then rev cur :: splitAt sep [] cs'
      else splitAt sep (c :: cur) cs'
  end.

Definition digitValue (c : ascii) : Z := Z.of_nat (nat_of_ascii c) - 48.

(** A non-empty run of decimal digits and the number it writes. *)
Definition parseSize (cs : list ascii) : option Z :=
  match cs with
  | [] => None
  | _ =>
      if forallb isDigit cs
      then Some (foldl (fun n c => 10 * n + digitValue c) 0 cs)
      else None
  end.

Definition validHash (cs : list ascii) : bool :=
  (length cs =? hashLength)%nat && forallb isHex cs.

(** Modelled from the spec: [parse] of section 4.1, which is
    [digest.NewFromString]; digest.go is not among the sources.  The string
    must be [hash/size] with a hash of the expected length and a numeric
    size. *)
Definition NewFromString (s : string) : Result Digest :=
  match splitAt "/" [] (list_ascii_of_string s) with
  | [h; sz] =>
      if validHash h then
        match parseSize sz with
        | Some n => OK {| Hash := string_of_list_ascii h; Size := n |}
        | None => Err MalformedDigest
        end
      else Err MalformedDigest
  | _ => Err MalformedDigest
  end.

(** Modelled from the spec: [digest.NewFromProto], the digest of a wire
    message, held to the same form as a parsed one; a nil message has the
    empty hash. *)
Definition NewFromProto (d : option pbDigest) : Result Digest :=
  let h := from_option pbHash "" d in
  let n := from_option SizeBytes 0 d in
  if validHash (list_ascii_of_string h) && (0 <=? n)
  then OK {| Hash := h; Size := n |}
  else Err MalformedDigest.

(** A wire digest taken as it is. *)
Definition NewFromProtoUnvalidated (d : option pbDigest) : Digest :=
  {| Hash := from_option pbHash "" d; Size := from_option SizeBytes 0 d |}.

End DigestPkg.

Global Instance Digest_eq_dec : EqDecision Digest.
Proof. solve_decision. Defined.

(** ** Package tree *)

Module TreePkg.

(** Every element of a list through a function that may fail. *)
Fixpoint mapResult {X Y} (f : X -> Result Y) (xs : list X)
  : Result (list Y) :=
  match xs with
  | [] => OK []
  | x :: xs' =>
      match f x with
      | OK y =>
          match mapResult f xs' with
          | OK ys => OK (y :: ys)
          | Err e => Err e
          end
      | Err e => Err e
      end
  end.

(** Child path = parent path + "/" + child name, with the root at the empty
    prefix. *)
Definition joinPath (parent name : string) : string :=
  if String.eqb parent "" then name else parent +:+ "/" +:+ name.

Definition isEmptyDir (d : Directory) : bool :=
  match Files d, Directories d, Symlinks d with
  | [], [], [] => true
  | _, _, _ => false
  end.

Section Flatten.
(** The digest of a directory node: the hash of its canonical serialized
    form. *)
Variable digestOf : Directory -> Digest.

(** The external operation "resolve digest to DirectoryNode", over the
    nodes that came with the tree. *)
Definition resolve (children : list Directory) (dg : Digest)
  : option Directory :=
  snd <$> list_find (fun d => digestOf d = dg) children.

Definition fileEntry (path : string) (f : FileNode) : string * Output :=
  (joinPath path (fnName f),
   {| oDigest := DigestPkg.NewFromProtoUnvalidated (fnDigest f);
      IsEmptyDirectory := false;
      SymlinkTarget := "" |}).

Definition symlinkEntry (path : string) (s : SymlinkNode)
  : string * Output :=
  (joinPath path (snName s),
   {| oDigest := {| Hash := ""; Size := 0 |};
      IsEmptyDirectory := false;
      SymlinkTarget := snTarget s |}).

Definition emptyDirEntry (path : string) (d : Directory)
  : string * Output :=
  (path,
   {| oDigest := digestOf d;
      IsEmptyDirectory := true;
      SymlinkTarget := "" |}).

(** Modelled from the spec: the recursion of [flatten] (section 4.4) in
    tree.go, which is not among the sources.  It lists the entries of a
    directory and of everything below it, in the order it meets them; a
    subdirectory whose digest does not resolve is a MissingNode error, and
    the depth of the recursion is bounded. *)
Fixpoint flattenDir (depth : nat) (children : list Directory)
    (path : string) (d : Directory) : Result (list (string * Output)) :=
  match depth with
  | O => Err DepthExceeded
  | S depth' =>
      if isEmptyDir d then OK [emptyDirEntry path d]
      else
        match
          mapResult
            (fun dn =>
               match resolve children
                       (DigestPkg.NewFromProtoUnvalidated (dnDigest dn))
               with
               | Some d' =>
                   flattenDir depth' children
                     (joinPath path (dnName dn)) d'
               | None => Err MissingNode
               end)
            (Directories d)
        with
        | OK subs =>
            OK (map (fileEntry path) (Files d)
                  ++ map (symlinkEntry path) (Symlinks d)
                  ++ concat subs)
        | Err e => Err e
        end
  end.

(** The entries of a tree, before they are put in the map. *)
Definition flattenEntries (t : Tree) (rootPath : string)
  : Result (list (string * Output)) :=
  match Root t with
  | Some root =>
      flattenDir (S (length (Children t))) (Children t) rootPath root
  | None => Err MissingNode
  end.

(** Modelled from the spec: [flatten] of section 4.4, which is
    [tree.FlattenTree].  The entries are assigned to the map one after the
    other, so that of two entries at one path the later one stays. *)
Definition FlattenTree (t : Tree) (rootPath : string)
  : Result (gmap string Output) :=
  match flattenEntries t rootPath with
  | OK entries => OK (list_to_map (reverse entries))
  | Err e => Err e
  end.

(** Directory [e] is found at path [q] below directory [d] at path [p]. *)
Inductive reach (children : list Directory)
  : string -> Directory -> string -> Directory -> Prop :=
| reach_here p d : reach children p d p d
| reach_sub p d dn d' q e :
    dn ∈ Directories d ->
    resolve children (DigestPkg.NewFromProtoUnvalidated (dnDigest dn))
      = Some d' ->
    reach children (joinPath p (dnName dn)) d' q e ->
    reach children p d q e.

End Flatten.
End TreePkg.

(** ** An environment and worlds for the examples *)

Module Examples.

(** A stand-in for the hash of a serialized directory: the names of the
    directory's entries. *)
Definition nameDigest (d : Directory) : Digest :=
  {| Hash := String.concat ","
               (map fnName (Files d) ++ map dnName (Directories d)
                  ++ map snName (Symlinks d));
     Size := Z.of_nat (length (Files d) + length (Directories d)
                         + length (Symlinks d)) |}.

Definition env : Tool.Env := {|
  Tool.NewFromString := DigestPkg.NewFromString;
  Tool.NewFromProto := DigestPkg.NewFromProto;
  Tool.FlattenTree := TreePkg.FlattenTree nameDigest;
  Tool.ptypesDuration := fun d => OK (Seconds d * 1000000000 + Nanos d);
  Tool.filepathJoin := TreePkg.joinPath
|}.

Definition hashA : string :=
  "aaaaaaaaaaaaaaaaaaaaaaaaaaaaaaaaaaaaaaaaaaaaaaaaaaaaaaaaaaaaaaaa".

(** A well-formed digest string, and a malformed one. *)
Definition goodDigest : string := hashA +:+ "/10".
Definition badDigest : string := "not-a-digest".

Definition digestA : Digest := {| Hash := hashA; Size := 10 |}.

Definition blobA : list byte := [x68; x65; x6c; x6c; x6f].

Definition blob5 : list byte := [x01; x02; x03; x04; x05].

Definition emptyResult : ActionResult := {|
  arOutputFiles := [];
  arOutputDirectories := [];
  StdoutDigest := Some {| pbHash := hashA; SizeBytes := 10 |};
  StderrDigest := None
|}.

(** A destination directory that holds a file from an earlier run. *)
Definition oldFs : gmap string FS.Node :=
  <["/out/old.txt" := FS.File [x6f; x6c; x64]]>
    (<["/out" := FS.Dir]> (<["/tmp" := FS.Dir]> ∅)).

Definition oldWorld : OsWorld unit := {| fs := oldFs; remote := tt |}.

(** A remote side on which the action is cached and every download
    fails. *)
Definition failingRemote : Handler (OsWorld unit) :=
  fun e w =>
    match e return Resp e * OsWorld unit with
    | OsRemoveAll _ | OsMkdir _ _ | OsRemove _ | FileClose _
    | WriteFile _ _ _ => (None, w)
    | OsTempDir => ("/tmp", w)
    | TempFile _ _ => (OK "/tmp/blob0", w)
    | ReadFile _ => (Err (Failure "unavailable"), w)
    | CheckActionCache _ => (OK (Some emptyResult), w)
    | ReadProto _ _ => (Err (Failure "unavailable"), w)
    | ReadBlob _ => (([], Some (Failure "unavailable")), w)
    | ReadBlobToFile _ _ => (Err (Failure "unavailable"), w)
    | DownloadActionOutputs _ _ => (Some (Failure "unavailable"), w)
    | GrpcDownloadDirectory _ _ => (Some (Failure "unavailable"), w)
    | GetDirectoryTree _ => (OK [], w)
    | RexecRun _ _ =>
        ({| Status := OtherResultStatus; ExitCode := 0; crErr := None |}, w)
    | NewClient instance _ opts => (OK (Connected instance opts), w)
    | MapRange keys => (keys, w)
    | TimeNow => ("2020-01-01T00:00:00Z", w)
    | LogInfof _ _ | LogErrorf _ _ | OeWriteErr _ _ => (tt, w)
    end.

(** A remote side that serves [blobA] for every blob that is asked. *)
Definition servingRemote : Handler (OsWorld unit) :=
  fun e w =>
    match e return Resp e * OsWorld unit with
    | ReadBlobToFile _ path =>
        (OK 5, {| fs := <[path := FS.File blobA]> (fs w); remote := tt |})
    | ReadBlob _ => ((blobA, None), w)
    | DownloadActionOutputs _ _ => (None, w)
    | GrpcDownloadDirectory _ _ => (None, w)
    | e' => failingRemote e' w
    end.

(** The tree of the end-to-end example of the specification: file [a.txt],
    empty directory [b] and symlink [c -> a.txt]. *)
Definition dirB : Directory :=
  {| Files := []; Directories := []; Symlinks := [] |}.

Definition dirRoot : Directory := {|
  Files := [{| fnName := "a.txt";
               fnDigest := Some {| pbHash := hashA; SizeBytes := 10 |};
               fnIsExecutable := false |}];
  Directories := [{| dnName := "b";
                     dnDigest := Some {| pbHash := ""; SizeBytes := 0 |} |}];
  Symlinks := [{| snName := "c"; snTarget := "a.txt" |}]
|}.

Definition exampleTree : Tree :=
  {| Root := Some dirRoot; Children := [dirRoot; dirB] |}.

(** The entries of [exampleTree], in the order flattening meets them. *)
Definition exampleEntries : list (string * Output) :=
  [("a.txt", {| oDigest := digestA; IsEmptyDirectory := false;
                SymlinkTarget := "" |});
   ("c", {| oDigest := {| Hash := ""; Size := 0 |};
            IsEmptyDirectory := false; SymlinkTarget := "a.txt" |});
   ("b", {| oDigest := {| Hash := ""; Size := 0 |};
            IsEmptyDirectory := true; SymlinkTarget := "" |})].

Definition exampleOutputs : gmap string Output :=
  list_to_map (reverse exampleEntries).

Definition actionA : Action := {|
  CommandDigest := Some {| pbHash := hashA; SizeBytes := 10 |};
  InputRootDigest := Some {| pbHash := hashA; SizeBytes := 10 |}; Timeout := None
|}.

Definition commandA : pbCommand := {|
  Arguments := ["true"];
  EnvironmentVariables := [];
  pbOutputFiles := [];
  OutputDirectories := [];
  Platform := None;
  WorkingDirectory := ""
|}.

(** A remote side that has the action and its command, and answers the
    call for the directory nodes of any root with no node at all. *)
Definition emptyTreeRemote : Handler (OsWorld unit) :=
  fun e w =>
    match e return Resp e * OsWorld unit with
    | ReadProto k _ =>
        (match k return Result (Msg k) with
         | KAction => OK actionA
         | KCommand => OK commandA
         | KTree => Err (Failure "unavailable")
         end, w)
    | e' => failingRemote e' w
    end.

(** Flag values with one override, and the defaults of the client.  The
    durations of the examples are whole seconds written with their unit,
    as in [10s], or a bare [0]; the stand-in for [time.ParseDuration] reads
    these and takes nothing else. *)
Definition flagEnv : Flags.Env := {|
  Flags.DefaultRPCTimeouts :=
    <["default" := 20000000000]> (<["GetActionResult" := 0]> ∅);
  Flags.ParseDuration :=
    fun s =>
      if String.eqb s "0" then OK 0
      else
        match rev (list_ascii_of_string s) with
        | "s"%char :: ds =>
            match DigestPkg.parseSize (rev ds) with
            | Some n => OK (n * 1000000000)
            | None => Err (Failure "time: invalid duration")
            end
        | _ => Err (Failure "time: invalid duration")
        end;
  Flags.certsFromPEM := fun _ => []
|}.

Definition flagValues : Flags.FlagValues := {|
  Flags.CredFile := "";
  Flags.UseApplicationDefaultCreds := false;
  Flags.UseGCECredentials := false;
  Flags.UseRPCCredentials := true;
  Flags.Service := "localhost:8790";
  Flags.CASService := "";
  Flags.Instance := "";
  Flags.CASConcurrency := 500;
  Flags.MaxConcurrentRequests := 25;
  Flags.MaxConcurrentStreams := 25;
  Flags.TLSServerName := "";
  Flags.TLSCACert := "";
  Flags.RPCTimeouts := <["default" := "10s"]> ∅
|}.

(** The runs the examples look at. *)
Definition badDirectoryRun :=
  exec (osHandler failingRemote)
    (Tool.DownloadDirectory env badDigest "/out") oldWorld.

Definition badBlobRun :=
  exec (osHandler failingRemote) (Tool.DownloadBlob env badDigest "") oldWorld.

Definition badResultRun :=
  exec (osHandler failingRemote)
    (Tool.DownloadActionResult env badDigest "/out") oldWorld.

Definition failedResultRun :=
  exec (osHandler failingRemote)
    (Tool.DownloadActionResult env goodDigest "/out") oldWorld.

Definition flagRun :=
  exec failingRemote (Flags.NewClientFromFlags flagEnv flagValues [])
    oldWorld.

End Examples.

(** ** Reasoning about every run of a program

    [only P p]: every effect the program can perform satisfies [P].
    [wp ok p Q past]: after the events [past], whatever answers the program
    gets among those [ok] admits, it ends with a history and a result that
    satisfy [Q]. *)

Fixpoint only {A} (P : Eff -> Prop) (p : Prog A) : Prop :=
  match p with
  | Ret _ => True
  | Do e k => P e /\ forall r, only P (k r)
  end.

Fixpoint wp {A} (ok : Event -> Prop) (p : Prog A)
    (Q : list Event -> A -> Prop) (past : list Event) : Prop :=
  match p with
  | Ret a => Q past a
  | Do e k =>
      forall r, ok {| ev := e; resp := r |} ->
                wp ok (k r) Q (past ++ [{| ev := e; resp := r |}])
  end.

(** The handler only gives answers that [ok] admits. *)
Definition answers {W} (ok : Event -> Prop) (h : Handler W) : Prop :=
  forall e w, ok {| ev := e; resp := fst (h e w) |}.

Definition anyAnswer (s : Event) : Prop := True.

(** The effects of a history. *)
Definition effects (hist : list Event) : list Eff := map ev hist.

(** Effects that leave the local disk as it is: no os call, and no client
    call that writes to disk. *)
Definition readOnly (e : Eff) : Prop :=
  isDisk e = false /\ clientWritesDisk e = false.

(** The look-up of an action result in the action cache. *)
Definition isCacheLookup (e : Eff) : Prop :=
  match e with
  | CheckActionCache _ => True
  | _ => False
  end.

Definition isMapRange (e : Eff) : Prop :=
  match e with
  | MapRange _ => True
  | _ => False
  end.

(** ** What the steps of a run say *)

(** The commands run, with their options, and what the runs answered. *)
Definition runs (hist : list Event) : list (Command * ExecutionOptions) :=
  omap (fun s => match ev s with
                 | RexecRun cmd opt => Some (cmd, opt)
                 | _ => None
                 end) hist.

Definition runResults (hist : list Event) : list CommandResult :=
  omap (fun s => match ev s as e return Resp e -> option CommandResult with
                 | RexecRun _ _ => fun r => Some r
                 | _ => fun _ => None
                 end (resp s)) hist.

(** The actions the remote side handed out. *)
Definition actionsRead (hist : list Event) : list Action :=
  omap (fun s => match ev s as e return Resp e -> option Action with
                 | ReadProto KAction _ =>
                     fun r => match r with OK a => Some a | Err _ => None end
                 | _ => fun _ => None
                 end (resp s)) hist.

(** The answers to the closing of files, to the reading of files, to the
    directory downloads of the client and to its download of action
    outputs. *)
Definition closeAnswers (hist : list Event) : list (option error) :=
  omap (fun s => match ev s as e return Resp e -> option (option error) with
                 | FileClose _ => fun r => Some r
                 | _ => fun _ => None
                 end (resp s)) hist.

Definition readFileAnswers (hist : list Event)
  : list (string * Result (list byte)) :=
  omap (fun s => match ev s as e
                   return Resp e -> option (string * Result (list byte)) with
                 | ReadFile path => fun r => Some (path, r)
                 | _ => fun _ => None
                 end (resp s)) hist.

Definition directoryDownloads (hist : list Event)
  : list (Digest * string * option error) :=
  omap (fun s => match ev s as e
                   return Resp e -> option (Digest * string * option error)
                 with
                 | GrpcDownloadDirectory dg path => fun r => Some (dg, path, r)
                 | _ => fun _ => None
                 end (resp s)) hist.

Definition outputDownloads (hist : list Event)
  : list (ActionResult * string) :=
  omap (fun s => match ev s with
                 | DownloadActionOutputs resPb path => Some (resPb, path)
                 | _ => None
                 end) hist.

(** The instance, parameters and options of the [NewClient] calls. *)
Definition dials (hist : list Event)
  : list (string * DialParams * list Opt) :=
  omap (fun s => match ev s with
                 | NewClient instance params opts =>
                     Some (instance, params, opts)
                 | _ => None
                 end) hist.

(** Every command is run in a directory into which the client has, before
    that, downloaded a tree without error.  [seen] holds the directories
    downloaded so far. *)
Fixpoint runsAfterDownload (seen : list string) (hist : list Event) : bool :=
  match hist with
  | [] => true
  | s :: rest =>
      match ev s as e return Resp e -> bool with
      | GrpcDownloadDirectory _ path =>
          fun r => runsAfterDownload
                     (if isSome r then seen else path :: seen) rest
      | RexecRun cmd _ =>
          fun _ => existsb (String.eqb (ExecRoot cmd)) seen
                   && runsAfterDownload seen rest
      | _ => fun _ => runsAfterDownload seen rest
      end (resp s)
  end.

Global Instance byte_eq_decision : EqDecision byte := Byte.byte_eq_dec.

(** Every read of a blob is followed, after the line the error log gets
    when the read came with an error, by the writing of a file with the
    bytes the read gave, whether it came with an error or not. *)
Definition writesBytes (data : list byte) (s : Event) : bool :=
  match ev s with
  | WriteFile _ d _ => bool_decide (d = data)
  | _ => false
  end.

Fixpoint readsAreWritten (hist : list Event) : bool :=
  match hist with
  | [] => true
  | s :: rest =>
      match ev s as e return Resp e -> bool with
      | ReadBlob _ =>
          fun r =>
            match snd r with
            | None =>
                match rest with
                | w :: _ => writesBytes (fst r) w
                | [] => false
                end
            | Some _ =>
                match rest with
                | l :: w :: _ => isErrorLog l && writesBytes (fst r) w
                | _ => false
                end
            end
      | _ => fun _ => true
      end (resp s)
      && readsAreWritten rest
  end.

(** The effects of a history up to its first download call; [None] when it
    has no download call. *)
Fixpoint untilDownload (hist : list Event) : option (list Eff) :=
  match hist with
  | [] => None
  | s :: rest =>
      if isDownload (ev s) then Some []
      else cons (ev s) <$> untilDownload rest
  end.

(** The os calls among some effects. *)
Definition diskCalls (es : list Eff) : list Eff := List.filter isDisk es.

(** No action result is to be had for a digest string: the string is
    malformed, or the cache has no result for the action. *)
Definition noResult {W} (env : Tool.Env) (h : Handler W) (w : W)
    (actionDigest : string) : Prop :=
  isErr (Tool.NewFromString env actionDigest) = true \/
  exists acDg,
    Tool.NewFromString env actionDigest = OK acDg /\
    fst (h (CheckActionCache {| pbHash := Hash acDg;
                                SizeBytes := Size acDg |}) w) = OK None.
(** ** Statements about the history and the result of a run *)

(** The certificates of the dial by [NewClientFromFlags]: with no CA file
    named, no file is read and every dial has an empty pool; with one
    named, only that file is read, and either no client is dialled and the
    result is an error, or one client is dialled, the file was read and the
    pool holds exactly the certificates found in it, which are some. *)
Definition certPoolSpec (env : Flags.Env) (fl : Flags.FlagValues)
    (hist : list Event) (r : Result RcClient) : Prop :=
  if String.eqb (Flags.TLSCACert fl) "" then
    readFileAnswers hist = [] /\
    Forall (fun d => dpCertPool (snd (fst d)) = []) (dials hist)
  else
    Forall (fun a => fst a = Flags.TLSCACert fl) (readFileAnswers hist) /\
    match dials hist with
    | [] => isErr r = true
    | [d] =>
        exists ca,
          readFileAnswers hist = [(Flags.TLSCACert fl, OK ca)] /\
          dpCertPool (snd (fst d)) = Flags.certsFromPEM env ca /\
          Flags.certsFromPEM env ca <> []
    | _ => False
    end.

(** The dial by [NewClientFromFlags] without overrides: the options are
    the caller's and the CAS concurrency, no map is walked, and with no CA
    file named the client is dialled, once. *)
Definition plainOptsSpec (fl : Flags.FlagValues) (opts : list Opt)
    (hist : list Event) : Prop :=
  Forall (fun d => snd d
                   = opts ++ [client_CASConcurrency (Flags.CASConcurrency fl)])
    (dials hist) /\
  Forall (fun e => ~ isMapRange e) (effects hist) /\
  (Flags.TLSCACert fl = "" -> length (dials hist) = 1%nat).

(** The command [ReexecuteAction] runs, if it gets to run one: it runs at
    most one, never accepting a cached result and downloading the outputs;
    the inputs are in lexicographic order; the timeout is the one of the
    action read, converted, and zero when the action has none; and with an
    input root given the command is run there, without any directory having
    been downloaded. *)
Definition runSpec (env : Tool.Env) (inputRoot : string)
    (hist : list Event) : Prop :=
  (inputRoot <> "" -> directoryDownloads hist = []) /\
  match runs hist with
  | [] => True
  | [(cmd, opt)] =>
      opt = {| AcceptCached := false; DownloadOutputs := true |} /\
      Sorted String.le (Inputs (cInputSpec cmd)) /\
      (inputRoot <> "" -> ExecRoot cmd = inputRoot) /\
      match actionsRead hist with
      | [a] =>
          match Timeout a with
          | Some t => Tool.ptypesDuration env t = OK (cTimeout cmd)
          | None => cTimeout cmd = 0
          end
      | _ => False
      end
  | _ => False
  end.

(** What [ReexecuteAction] returns: the error of the run's result, be it
    nil, when the command was run, and an error when it was not. *)
Definition runResultSpec (hist : list Event) (r : Result unit) : Prop :=
  match runResults hist with
  | [] => isErr r = true
  | [res] => r = ofErr (crErr res)
  | _ => False
  end.


(** The local paths the steps of [DownloadActionResult] may name: the
    destination, for its cleaning and for the download of the outputs, and
    the two files in it that get the output streams.  No other step
    touches the disk. *)
Definition confinedTo (env : Tool.Env) (pathPrefix : string) (e : Eff)
  : Prop :=
  match e with
  | OsRemoveAll p | OsMkdir p _ | DownloadActionOutputs _ p =>
      p = pathPrefix
  | WriteFile p _ _ =>
      p = Tool.filepathJoin env pathPrefix Tool.stdoutFile \/
      p = Tool.filepathJoin env pathPrefix Tool.stderrFile
  | _ => readOnly e
  end.





(** The map ranges of a history were answered as the Go runtime answers
    them: each key once, in some order. *)
Definition fairAnswer (s : Event) : Prop :=
  match ev s as e return Resp e -> Prop with
  | MapRange keys => fun r => r ≡ₚ keys
  | _ => fun _ => True
  end (resp s).

(** The action results found in the cache, the digests of the blobs read
    and the paths of the files written. *)
Definition resultsFound (hist : list Event) : list ActionResult :=
  omap (fun s => match ev s as e return Resp e -> option ActionResult with
                 | CheckActionCache _ =>
                     fun r => match r with
                              | OK (Some a) => Some a
                              | _ => None
                              end
                 | _ => fun _ => None
                 end (resp s)) hist.

Definition blobsRead (hist : list Event) : list Digest :=
  omap (fun s => match ev s with
                 | ReadBlob dg => Some dg
                 | _ => None
                 end) hist.

Definition filesWritten (hist : list Event) : list string :=
  omap (fun s => match ev s with
                 | WriteFile path _ _ => Some path
                 | _ => None
                 end) hist.

(** The output streams an action result names, each with the file of the
    destination it goes to. *)
Definition streamsOf (env : Tool.Env) (pathPrefix : string)
    (resPb : ActionResult) : list (string * Digest) :=
  omap (fun pd => (fun reDg => (fst pd, {| Hash := pbHash reDg;
                                           Size := SizeBytes reDg |}))
                    <$> snd pd)
    [(Tool.filepathJoin env pathPrefix Tool.stdoutFile, StdoutDigest resPb);
     (Tool.filepathJoin env pathPrefix Tool.stderrFile, StderrDigest resPb)].

(** The stream to fetch for a path, by the map of the streams. *)
Definition streamAt (outMsgs : gmap string (option pbDigest))
    (path : string) : option (string * Digest) :=
  match outMsgs !! path with
  | Some (Some reDg) =>
      Some (path, {| Hash := pbHash reDg; Size := SizeBytes reDg |})
  | _ => None
  end.

(** [DownloadActionResult] fetches every output stream the result names,
    and nothing else: without a result from the cache it reads no blob and
    writes no file; with one, the blobs read are the streams' digests and
    the files written are the streams' files, each once, in some order. *)
Definition streamsSpec (env : Tool.Env) (pathPrefix : string)
    (hist : list Event) : Prop :=
  match resultsFound hist with
  | [] => blobsRead hist = [] /\ filesWritten hist = []
  | [resPb] =>
      blobsRead hist ≡ₚ (streamsOf env pathPrefix resPb).*2 /\
      filesWritten hist ≡ₚ (streamsOf env pathPrefix resPb).*1
  | _ => False
  end.

(** ** Further worlds for the examples *)

Module MoreExamples.

(** A remote side whose action cache has no result for any action. *)
Definition missRemote : Handler (OsWorld unit) :=
  fun e w =>
    match e return Resp e * OsWorld unit with
    | CheckActionCache _ => (OK None, w)
    | e' => Examples.failingRemote e' w
    end.

(** Flag values without any override of the timeouts. *)
Definition plainFlagValues : Flags.FlagValues := {|
  Flags.CredFile := "";
  Flags.UseApplicationDefaultCreds := false;
  Flags.UseGCECredentials := false;
  Flags.UseRPCCredentials := true;
  Flags.Service := "localhost:8790";
  Flags.CASService := "";
  Flags.Instance := "";
  Flags.CASConcurrency := 500;
  Flags.MaxConcurrentRequests := 25;
  Flags.MaxConcurrentStreams := 25;
  Flags.TLSServerName := "";
  Flags.TLSCACert := "";
  Flags.RPCTimeouts := ∅
|}.

End MoreExamples.
(** * Properties *)

(** ** Chunker: round trip *)

Section ChunkerProps.
Import Chunker.
Variable inlineThreshold : Z.

Lemma drain_exhausted fuel c :
  exhausted c = true -> drain inlineThreshold fuel c = OK [].
Proof. intros H. destruct fuel; simpl; unfold hasNext; by rewrite H. Qed.

(** From any position that is not exhausted, draining the chunker and
    writing the chunks after the prefix already in the sink gives back the
    whole content. *)
Lemma drain_writeChunks fuel : forall c,
  exhausted c = false ->
  0 < chunkSize c ->
  0 <= offset c <= totalSize c ->
  totalSize c - offset c < Z.of_nat fuel ->
  exists cs,
    drain inlineThreshold fuel c = OK cs /\
    writeChunks (take (Z.to_nat (offset c)) (contents c)) cs
      = OK (contents c).
Proof.
  induction fuel as [|fuel IH]; intros c Hex Hsz Hoff Hfuel.
  - unfold totalSize in *. lia.
  - simpl. unfold hasNext, next. rewrite Hex. simpl.
    destruct ((offset c =? 0) && (totalSize c <? inlineThreshold)) eqn:Hin.
    + simpl. rewrite drain_exhausted by done. simpl.
      apply andb_true_iff in Hin as [Ho _]. apply Z.eqb_eq in Ho.
      rewrite Ho. simpl. eexists; split; [done|]. simpl. done.
    + simpl.
      assert (Hlen : length (take (Z.to_nat (offset c)) (contents c))
                     = Z.to_nat (offset c)).
      { rewrite length_take. unfold totalSize in Hoff. lia. }
      set (data := take (Z.to_nat (chunkSize c))
                        (drop (Z.to_nat (offset c)) (contents c))).
      set (c' := Build_Chunker _ _ _ _).
      assert (Hcat : take (Z.to_nat (offset c)) (contents c) ++ data
                     = take (Z.to_nat (offset c) + Z.to_nat (chunkSize c))
                            (contents c)).
      { subst data. by rewrite take_take_drop. }
      assert (Hdata : length data
                      = (Z.to_nat (chunkSize c)
                         `min` (length (contents c) - Z.to_nat (offset c)))%nat).
      { subst data. by rewrite length_take, length_drop. }
      assert (Hwr : forall rest,
                writeChunks (take (Z.to_nat (offset c)) (contents c))
                  ({| Offset := offset c; Data := data |} :: rest)
                = writeChunks
                    (take (Z.to_nat (offset c) + Z.to_nat (chunkSize c))
                       (contents c)) rest).
      { intros rest. simpl. rewrite Hlen.
        replace (offset c <? Z.of_nat (Z.to_nat (offset c))) with false
          by (symmetry; apply Z.ltb_ge; lia).
        by rewrite Hcat. }
      unfold totalSize in *.
      destruct (Z.of_nat (length (contents c))
                <=? offset c + Z.of_nat (length data)) eqn:Hdone.
      * rewrite drain_exhausted by (subst c'; simpl; done). simpl.
        eexists; split; [done|]. rewrite Hwr. simpl.
        apply Z.leb_le in Hdone. rewrite take_ge; [done|]. lia.
      * apply Z.leb_gt in Hdone.
        destruct (IH c') as (cs & Hd & Hw); subst c'; simpl.
        -- done.
        -- done.
        -- lia.
        -- lia.
        -- simpl in Hd. rewrite Hd. simpl. eexists; split; [done|].
           rewrite Hwr. simpl in Hw.
           replace (Z.to_nat (offset c) + Z.to_nat (chunkSize c))%nat
             with (Z.to_nat (offset c + Z.of_nat (length data))) by lia.
           exact Hw.
Qed.

(** C5.  For every blob, of any size including zero, and every positive
    chunk size, dividing the blob length or not, the chunker produces a
    chunk sequence (any loop bound above the blob length suffices), and
    reassembling that sequence against the declared total size gives back
    the original bytes exactly. *)
Theorem chunk_reassemble_roundtrip (source : list byte) (size : Z)
    (fuel : nat) :
  0 < size ->
  (length source < fuel)%nat ->
  exists cs,
    chunk inlineThreshold fuel source size = OK cs /\
    reassemble (Z.of_nat (length source)) cs = OK source.
Proof.
  intros Hsize Hfuel. unfold chunk, forSource.
  replace (size <=? 0) with false by (symmetry; apply Z.leb_gt; lia).
  simpl.
  destruct (drain_writeChunks fuel
              {| contents := source; chunkSize := size; offset := 0;
                 exhausted := false |}) as (cs & Hd & Hw);
    simpl; unfold totalSize; simpl; try lia; try done.
  exists cs. split; [done|]. unfold reassemble.
  simpl in Hw. change (take (Z.to_nat 0) source) with (@nil byte) in Hw.
  rewrite Hw.
  simpl. by rewrite Z.eqb_refl.
Qed.

End ChunkerProps.

(** Five bytes in chunks of two, and the empty blob. *)
Example chunk_five_by_two :
  Chunker.chunk 0 6 Examples.blob5 2
  = OK [{| Chunker.Offset := 0; Chunker.Data := [x01; x02] |};
        {| Chunker.Offset := 2; Chunker.Data := [x03; x04] |};
        {| Chunker.Offset := 4; Chunker.Data := [x05] |}].
Proof. reflexivity. Qed.

Example chunk_empty_blob :
  Chunker.chunk 0 1 [] 3
  = OK [{| Chunker.Offset := 0; Chunker.Data := [] |}].
Proof. reflexivity. Qed.

Example chunk_bad_size :
  Chunker.chunk 0 6 Examples.blob5 0 = Err InvalidConfig.
Proof. reflexivity. Qed.

Example reassemble_out_of_order :
  Chunker.reassemble 4
    [{| Chunker.Offset := 2; Chunker.Data := [x03; x04] |};
     {| Chunker.Offset := 0; Chunker.Data := [x01; x02] |}]
  = Err OutOfOrderChunk.
Proof. reflexivity. Qed.

Example reassemble_incomplete :
  Chunker.reassemble 5
    [{| Chunker.Offset := 0; Chunker.Data := [x01; x02] |}]
  = Err IncompleteBlob.
Proof. reflexivity. Qed.

Lemma chunk_reassemble_roundtrip_witness :
  exists cs,
    Chunker.chunk 0 6 Examples.blob5 2 = OK cs /\
    Chunker.reassemble (Z.of_nat (length Examples.blob5)) cs = OK Examples.blob5.
Proof. apply (chunk_reassemble_roundtrip 0 Examples.blob5 2 6); simpl; lia. Defined.

(** ** Running programs *)

Lemma exec_bind {A B W} (h : Handler W) (p : Prog A) (f : A -> Prog B) :
  forall w,
    exec h (bind p f) w =
    (result (exec h (f (result (exec h p w))) (final (exec h p w))),
     final (exec h (f (result (exec h p w))) (final (exec h p w))),
     steps (exec h p w)
       ++ steps (exec h (f (result (exec h p w))) (final (exec h p w)))).
Proof.
  induction p as [a|e k IH]; intros w.
  - cbn [bind exec]. unfold result, final, steps. cbn [fst snd app].
    by destruct (exec h (f a) w) as [[??]?].
  - cbn [bind exec]. rewrite IH. reflexivity.
Qed.

Lemma result_bind {A B W} (h : Handler W) (p : Prog A) (f : A -> Prog B) w :
  result (exec h (bind p f) w) =
  result (exec h (f (result (exec h p w))) (final (exec h p w))).
Proof. by rewrite exec_bind. Qed.

Lemma final_bind {A B W} (h : Handler W) (p : Prog A) (f : A -> Prog B) w :
  final (exec h (bind p f) w) =
  final (exec h (f (result (exec h p w))) (final (exec h p w))).
Proof. by rewrite exec_bind. Qed.

Lemma steps_bind {A B W} (h : Handler W) (p : Prog A) (f : A -> Prog B) w :
  steps (exec h (bind p f) w) =
  steps (exec h p w)
    ++ steps (exec h (f (result (exec h p w))) (final (exec h p w))).
Proof. by rewrite exec_bind. Qed.

Lemma exec_bind_assoc {A B C W} (h : Handler W) (p : Prog A)
    (g : A -> Prog B) (k : B -> Prog C) :
  forall w,
    exec h (bind p (fun a => bind (g a) k)) w = exec h (bind (bind p g) k) w.
Proof.
  induction p as [a|e k0 IH]; intros w; cbn [bind exec].
  - reflexivity.
  - by rewrite IH.
Qed.

Lemma foldl_snoc_id {X} (l acc : list X) :
  foldl (fun paths path => paths ++ [path]) acc l = acc ++ l.
Proof.
  revert acc. induction l as [|x l IH]; intros acc; simpl.
  - by rewrite app_nil_r.
  - rewrite IH. by rewrite <- app_assoc.
Qed.

Lemma fairRange_elem_of {W} (h : Handler W) keys w k :
  fairRange h -> k ∈ fst (h (MapRange keys) w) <-> k ∈ keys.
Proof. intros Hf. by rewrite (Hf keys w). Qed.

Lemma elem_of_keys {V} (m : gmap string V) (k : string) :
  k ∈ (map_to_list m).*1 <-> is_Some (m !! k).
Proof.
  rewrite list_elem_of_fmap. split.
  - intros ([k' v] & -> & Hkv). apply elem_of_map_to_list in Hkv. by exists v.
  - intros [v Hv]. exists (k, v). split; [done|]. by apply elem_of_map_to_list.
Qed.

(** ** flags: the effective per-RPC timeouts *)

Section FlagsProps.
Import Flags.
Variable env : Env.
Variable fl : FlagValues.

Let copyDefault (timeouts : gmap string Duration) (rpc : string) :=
  match DefaultRPCTimeouts env !! rpc with
  | Some d => <[rpc := d]> timeouts
  | None => timeouts
  end.

Let override (timeouts : gmap string Duration) (rpc : string) :=
  match RPCTimeouts fl !! rpc with
  | Some s =>
      match ParseDuration env s with
      | OK d => OK (<[rpc := d]> timeouts)
      | Err err => Err err
      end
  | None => OK timeouts
  end.

Lemma copy_defaults_lookup (l : list string) :
  forall (m : gmap string Duration) k,
    foldl copyDefault m l !! k =
    if decide (k ∈ l)
    then match DefaultRPCTimeouts env !! k with
         | Some d => Some d
         | None => m !! k
         end
    else m !! k.
Proof.
  induction l as [|x l IH]; intros m k; cbn [foldl].
  - rewrite decide_False by apply not_elem_of_nil. done.
  - rewrite IH. unfold copyDefault.
    destruct (decide (k = x)) as [->|Hne].
    + rewrite (decide_True (P := x ∈ x :: l)) by apply list_elem_of_here.
      destruct (DefaultRPCTimeouts env !! x) eqn:Hx.
      * by destruct (decide (x ∈ l)); simplify_map_eq.
      * by destruct (decide (x ∈ l)).
    + destruct (decide (k ∈ l)) as [Hin|Hnin].
      * rewrite decide_True by (by apply list_elem_of_further).
        destruct (DefaultRPCTimeouts env !! x) eqn:Hx;
          simplify_map_eq; done.
      * rewrite decide_False by (by apply not_elem_of_cons).
        destruct (DefaultRPCTimeouts env !! x) eqn:Hx;
          simplify_map_eq; done.
Qed.

Lemma copy_defaults (l : list string) :
  l ≡ₚ (map_to_list (DefaultRPCTimeouts env)).*1 ->
  foldl copyDefault ∅ l = DefaultRPCTimeouts env.
Proof.
  intros Hl. apply map_eq. intros k. rewrite copy_defaults_lookup.
  case_decide as Hk.
  - destruct (DefaultRPCTimeouts env !! k) eqn:E; [done|].
    rewrite Hl in Hk. apply elem_of_keys in Hk as [v Hv]. congruence.
  - rewrite lookup_empty. symmetry.
    destruct (DefaultRPCTimeouts env !! k) eqn:E; [|done].
    exfalso. apply Hk. rewrite Hl. apply elem_of_keys. by exists d.
Qed.

Lemma overrides_ok (l : list string) :
  (forall rpc s, RPCTimeouts fl !! rpc = Some s ->
                 isErr (ParseDuration env s) = false) ->
  forall m : gmap string Duration,
  exists m',
    foldResult override l m = OK m' /\
    forall k,
      m' !! k =
      if decide (k ∈ l)
      then match RPCTimeouts fl !! k with
           | Some s => parsed env s
           | None => m !! k
           end
      else m !! k.
Proof.
  intros Hparse. induction l as [|x l IH]; intros m; cbn [foldResult].
  - exists m. split; [done|]. intros k.
    rewrite decide_False by apply not_elem_of_nil. done.
  - unfold override at 1.
    destruct (RPCTimeouts fl !! x) as [s|] eqn:Hx.
    + specialize (Hparse x s Hx).
      destruct (ParseDuration env s) as [d|] eqn:Hd; [|done].
      destruct (IH (<[x := d]> m)) as (m' & -> & Hm').
      exists m'. split; [done|]. intros k. rewrite Hm'.
      destruct (decide (k = x)) as [->|Hne].
      * rewrite Hx. unfold parsed. rewrite Hd.
        rewrite (decide_True (P := x ∈ x :: l)) by apply list_elem_of_here.
        destruct (decide (x ∈ l)); by simplify_map_eq.
      * destruct (decide (k ∈ l)) as [Hin|Hnin].
        -- rewrite decide_True by (by apply list_elem_of_further). by simplify_map_eq.
        -- rewrite decide_False by (by apply not_elem_of_cons). by simplify_map_eq.
    + destruct (IH m) as (m' & -> & Hm').
      exists m'. split; [done|]. intros k. rewrite Hm'.
      destruct (decide (k = x)) as [->|Hne].
      * rewrite Hx. rewrite (decide_True (P := x ∈ x :: l)) by apply list_elem_of_here.
        by destruct (decide (x ∈ l)).
      * destruct (decide (k ∈ l)) as [Hin|Hnin].
        -- rewrite decide_True by (by apply list_elem_of_further). done.
        -- rewrite decide_False by (by apply not_elem_of_cons). done.
Qed.

Lemma overrides_bad (l : list string) rpc s :
  RPCTimeouts fl !! rpc = Some s ->
  isErr (ParseDuration env s) = true ->
  rpc ∈ l ->
  forall m : gmap string Duration,
    isErr (foldResult override l m) = true.
Proof.
  intros Hrpc Hbad. induction l as [|x l IH]; intros Hin m.
  - by apply elem_of_nil in Hin.
  - cbn [foldResult]. unfold override at 1.
    destruct (decide (x = rpc)) as [->|Hne].
    + rewrite Hrpc. by destruct (ParseDuration env s).
    + destruct (RPCTimeouts fl !! x) as [s'|].
      * destruct (ParseDuration env s'); [|done]. apply IH.
        apply elem_of_cons in Hin as [?|?]; [congruence|done].
      * apply IH. apply elem_of_cons in Hin as [?|?]; [congruence|done].
Qed.

(** C4.  With at least one override, [NewClientFromFlags] only ever dials
    with the timeout map made of every default entry, overwritten at the
    overridden keys alone, and it does dial with it when no CA file has to
    be loaded; an override that does not parse yields an error and no
    client is dialled. *)
Theorem NewClientFromFlags_timeouts {W} (h : Handler W) (w : W)
    (opts : list Opt) :
  fairRange h ->
  (0 < size (RPCTimeouts fl))%nat ->
  let run := exec h (NewClientFromFlags env fl opts) w in
  ((forall rpc s, RPCTimeouts fl !! rpc = Some s ->
                  isErr (ParseDuration env s) = false) ->
   exists timeouts,
     effective env fl timeouts /\
     let opts' := opts ++ [client_CASConcurrency (CASConcurrency fl)]
                       ++ [client_RPCTimeouts timeouts] in
     (forall o, o ∈ dialled (steps run) -> o = opts') /\
     (TLSCACert fl = "" -> dialled (steps run) = [opts'])) /\
  (forall rpc s, RPCTimeouts fl !! rpc = Some s ->
                 isErr (ParseDuration env s) = true ->
     isErr (result run) = true /\ dialled (steps run) = []).
Proof.
  intros Hfair Hsize run. subst run. unfold NewClientFromFlags.
  apply Nat.ltb_lt in Hsize. rewrite Hsize.
  fold copyDefault. fold override.
  cbn [exec bind ebind perform result final steps fst snd].
  set (r1 := h (MapRange (map_to_list (DefaultRPCTimeouts env)).*1) w).
  set (r2 := h (MapRange (map_to_list (RPCTimeouts fl)).*1) (snd r1)).
  assert (H1 : fst r1 ≡ₚ (map_to_list (DefaultRPCTimeouts env)).*1)
    by apply Hfair.
  assert (H2 : fst r2 ≡ₚ (map_to_list (RPCTimeouts fl)).*1) by apply Hfair.
  rewrite (copy_defaults _ H1).
  split.
  - intros Hparse.
    destruct (overrides_ok (fst r2) Hparse (DefaultRPCTimeouts env))
      as (m' & Hm' & Hlook).
    exists m'. split.
    { intros rpc. rewrite Hlook. case_decide as Hin; [done|].
      destruct (RPCTimeouts fl !! rpc) as [s|] eqn:E; [|done].
      exfalso. apply Hin. rewrite H2. apply elem_of_keys. by exists s. }
    rewrite Hm'. rewrite <- app_assoc.
    destruct (negb (String.eqb (TLSCACert fl) "")) eqn:Hca.
    + split.
      * cbn [exec bind ebind perform result final steps fst snd].
        destruct (fst (h (ReadFile (TLSCACert fl)) (snd r2))) as [ca|e];
          [destruct (certsFromPEM env ca)|];
          cbn [exec bind ebind perform result final steps fst snd
               dialled omap ev];
          intros o Ho;
          repeat (apply elem_of_cons in Ho as [->|Ho]; [done|]);
          by apply elem_of_nil in Ho.
      * intros Hnil. rewrite Hnil in Hca. done.
    + cbn [exec bind ebind perform result final steps fst snd
           dialled omap ev].
      split; [|done]. intros o Ho.
      apply elem_of_cons in Ho as [->|Ho]; [done|].
      by apply elem_of_nil in Ho.
  - intros rpc s Hrpc Hbad.
    assert (Hin : rpc ∈ fst r2).
    { rewrite H2. apply elem_of_keys. by exists s. }
    pose proof (overrides_bad (fst r2) rpc s Hrpc Hbad Hin
                  (DefaultRPCTimeouts env)) as Herr.
    destruct (foldResult override (fst r2) (DefaultRPCTimeouts env));
      [done|].
    cbn [exec bind ebind perform result final steps fst snd
         dialled omap ev].
    done.
Qed.

End FlagsProps.

(** ** tool: digests are checked before anything else, except where they
       are not *)

Section ToolValidation.
Import Tool.
Variable env : Env.

Lemma getActionResult_malformed (actionDigest : string) (e : error) :
  NewFromString env actionDigest = Err e ->
  getActionResult env actionDigest = Ret (Err e).
Proof. intros H. unfold getActionResult. rewrite H. reflexivity. Qed.

(** On a malformed digest these four return the parse error without a
    single effect. *)
Lemma ReexecuteAction_malformed (actionDigest inputRoot : string) e :
  NewFromString env actionDigest = Err e ->
  ReexecuteAction env actionDigest inputRoot = Ret (Err e).
Proof. intros H. unfold ReexecuteAction. rewrite H. reflexivity. Qed.

Lemma DownloadActionResult_malformed (actionDigest pathPrefix : string) e :
  NewFromString env actionDigest = Err e ->
  DownloadActionResult env actionDigest pathPrefix = Ret (Err e).
Proof.
  intros H. unfold DownloadActionResult.
  rewrite (getActionResult_malformed _ _ H). reflexivity.
Qed.

Lemma ShowAction_malformed (actionDigest : string) e :
  NewFromString env actionDigest = Err e ->
  ShowAction env actionDigest = Ret (Err e).
Proof.
  intros H. unfold ShowAction.
  rewrite (getActionResult_malformed _ _ H). reflexivity.
Qed.

Lemma DownloadBlob_malformed_path (blobDigest path : string) e :
  NewFromString env blobDigest = Err e ->
  path <> "" ->
  DownloadBlob env blobDigest path = Ret (Err e).
Proof.
  intros H Hp. unfold DownloadBlob.
  apply String.eqb_neq in Hp. rewrite Hp, H. reflexivity.
Qed.

(** [DownloadDirectory] cleans the destination first and parses the digest
    afterwards. *)
Lemma DownloadDirectory_malformed (rootDigest path : string) e :
  NewFromString env rootDigest = Err e ->
  DownloadDirectory env rootDigest path =
  Do (LogInfof "Cleaning contents of %v." [AVal (VString path)]) (fun _ =>
  Do (OsRemoveAll path) (fun _ =>
  Do (OsMkdir path 493) (fun _ => Ret (Err e)))).
Proof. intros H. unfold DownloadDirectory. rewrite H. reflexivity. Qed.

End ToolValidation.

(** C1.  The string [not-a-digest] is malformed, and [DownloadDirectory]
    called with it on a destination that holds a file fails with the parse
    error only after it has removed the destination and made it anew: the
    file is gone.  (The other operations return the parse error without any
    activity, see the lemmas above; [DownloadBlob] with an empty path makes
    and removes a temporary file first.) *)
Theorem DownloadDirectory_malformed_digest_cleans :
  Tool.NewFromString Examples.env Examples.badDigest = Err MalformedDigest /\
  result Examples.badDirectoryRun = Err MalformedDigest /\
  activity (steps Examples.badDirectoryRun)
    = [OsRemoveAll "/out"; OsMkdir "/out" 493] /\
  fs Examples.oldWorld !! "/out/old.txt" = Some (FS.File [x6f; x6c; x64]) /\
  fs (final Examples.badDirectoryRun) !! "/out/old.txt" = None /\
  fs (final Examples.badDirectoryRun) !! "/out" = Some FS.Dir.
Proof. vm_compute. repeat split; reflexivity. Qed.

Lemma DownloadBlob_malformed_digest_tempfile :
  result Examples.badBlobRun = Err MalformedDigest /\
  activity (steps Examples.badBlobRun) =
    [TempFile "/tmp" ""; FileClose "/tmp/blob0"; OsRemove "/tmp/blob0"].
Proof. vm_compute. split; reflexivity. Qed.

(** ** tool: what [DownloadActionResult] does with failed downloads *)

Section DownloadActionResultProps.
Import Tool.
Variable env : Env.
Context {W : Type}.
Variable h : Handler W.

Ltac step :=
  cbn [exec bind ebind perform forEach result final steps events fst snd
       map failuresLogged isFailedDownload isErrorLog ev resp andb].

Lemma failuresLogged_app (a b : list Event) :
  failuresLogged a = true -> failuresLogged b = true ->
  failuresLogged (a ++ b) = true.
Proof.
  intros Ha Hb. induction a as [|s a IH]; [done|].
  cbn [app failuresLogged] in *.
  apply andb_true_iff in Ha as [Hs Ha]. rewrite (IH Ha), andb_true_r.
  destruct (isFailedDownload s); [|done].
  by destruct a.
Qed.

Lemma logged_Ret {A} (a : A) : logged h (Ret a).
Proof. intros w. reflexivity. Qed.

Lemma logged_bind {A B} (p : Prog A) (f : A -> Prog B) :
  logged h p -> (forall a, logged h (f a)) -> logged h (bind p f).
Proof.
  intros Hp Hf w. unfold events. rewrite steps_bind, map_app.
  apply failuresLogged_app; [apply Hp | apply Hf].
Qed.

Lemma logged_assoc {A B C} (p : Prog A) (g : A -> Prog B)
    (k : B -> Prog C) :
  logged h (bind (bind p g) k) -> logged h (bind p (fun a => bind (g a) k)).
Proof. intros H w. rewrite exec_bind_assoc. apply H. Qed.

Lemma logged_perform (e : Eff) :
  (forall r, isFailedDownload {| ev := e; resp := r |} = false) ->
  logged h (perform e).
Proof.
  intros He w. unfold events. step. by rewrite He.
Qed.

Lemma logged_forEach {X} (body : X -> Prog unit) (xs : list X) :
  (forall x, logged h (body x)) -> logged h (forEach xs body).
Proof.
  intros Hbody. induction xs as [|x xs IH]; cbn [forEach].
  - apply logged_Ret.
  - apply logged_bind; [apply Hbody | intros _; apply IH].
Qed.

(** C2, as the code has it.  [DownloadActionResult] fails exactly when the
    action result cannot be had, with that error; once it has the action
    result it returns success whatever happens to the downloads, and each
    download of outputs, read of a blob or write of a file that failed is
    followed by a line in the error log. *)
Theorem DownloadActionResult_logs_failures (actionDigest pathPrefix : string)
    (w : W) :
  let run := exec h (DownloadActionResult env actionDigest pathPrefix) w in
  match result (exec h (getActionResult env actionDigest) w) with
  | Err e => result run = Err e
  | OK _ => result run = OK tt /\ failuresLogged (events run) = true
  end.
Proof.
  intros run. subst run. unfold DownloadActionResult, events.
  unfold ebind. rewrite result_bind, steps_bind, map_app.
  assert (Hget : logged h (getActionResult env actionDigest)).
  { intros w'. unfold getActionResult, events.
    destruct (NewFromString env actionDigest) as [acDg|e]; step; [|done].
    destruct (h (CheckActionCache _) w') as [[[r|]|e] w1]; step; done. }
  specialize (Hget w). unfold events in Hget.
  destruct (result (exec h (getActionResult env actionDigest) w))
    as [resPb|e]; [|reflexivity].
  split.
  - repeat (rewrite result_bind; cbn beta). reflexivity.
  - apply failuresLogged_app; [exact Hget|].
    match goal with
    | |- failuresLogged (map fst (steps (exec _ ?P ?w'))) = true =>
        apply (fun H : logged h P => H w')
    end.
    do 4 (apply logged_bind; [by apply logged_perform | intros _]).
    apply logged_assoc, logged_bind; [|intros _].
    { intros w'. unfold events. step.
      by destruct (h (DownloadActionOutputs _ _) w') as [[err|] w1]. }
    apply logged_bind; [by apply logged_perform | intros order].
    apply logged_bind; [|intros _].
    + apply logged_forEach. intros path.
      destruct (_ !! path) as [[reDg|]|]; try apply logged_Ret.
      intros w'. unfold events. step.
      destruct (h (LogInfof _ _) w') as [[] w1]. step.
      destruct (h (ReadBlob _) w1) as [[b [e|]] w2]; step.
      * destruct (h (LogErrorf _ _) w2) as [[] w3]. step.
        by destruct (h (WriteFile _ _ _) w3) as [[e'|] w4].
      * by destruct (h (WriteFile _ _ _) w2) as [[e|] w3].
    + apply logged_bind; [by apply logged_perform | intros _].
      apply logged_Ret.
Qed.

End DownloadActionResultProps.

(** ** The file system: cleaning a destination *)

Section FSProps.
Import FS.
Implicit Types fs : gmap string Node.

Lemma length_list_ascii_of_string (s : string) :
  length (list_ascii_of_string s) = String.length s.
Proof. induction s as [|c s IH]; simpl; [done|by f_equal]. Qed.

Lemma length_string_of_list_ascii (l : list ascii) :
  String.length (string_of_list_ascii l) = length l.
Proof. induction l as [|c l IH]; simpl; [done|by f_equal]. Qed.

Lemma length_append (a b : string) :
  String.length (a +:+ b) = (String.length a + String.length b)%nat.
Proof.
  induction a as [|c a IH]; [done|].
  change (S (String.length (a +:+ b))
          = S (String.length a + String.length b)).
  by rewrite IH.
Qed.

Lemma prefix_length (a b : string) :
  String.prefix a b = true -> (String.length a <= String.length b)%nat.
Proof.
  revert b. induction a as [|c a IH]; intros b H; simpl in *; [lia|].
  destruct b as [|c' b]; simpl in *; [done|].
  destruct (ascii_dec c c'); [|done]. apply IH in H. lia.
Qed.

Lemma under_refl (p : string) : under p p = true.
Proof. unfold under. by rewrite String.eqb_refl. Qed.

Lemma under_length (p q : string) :
  under p q = true -> (String.length p <= String.length q)%nat.
Proof.
  unfold under. intros H. apply orb_true_iff in H as [H|H].
  - apply String.eqb_eq in H. subst. lia.
  - apply prefix_length in H. rewrite length_append in H. lia.
Qed.

Lemma dropToSlash_length (cs : list ascii) :
  (length (dropToSlash cs) <= length cs)%nat.
Proof.
  induction cs as [|c cs IH]; simpl; [lia|].
  destruct (Ascii.eqb c "/"); simpl; lia.
Qed.

Lemma dirName_shorter (p d : string) :
  dirName p = Some d -> (String.length d < String.length p)%nat.
Proof.
  unfold dirName. intros H.
  pose proof (dropToSlash_length (rev (list_ascii_of_string p))) as Hl.
  destruct (dropToSlash (rev (list_ascii_of_string p))) as [|c r]; [done|].
  injection H as <-.
  rewrite length_string_of_list_ascii, length_rev.
  rewrite length_rev, length_list_ascii_of_string in Hl. simpl in Hl. lia.
Qed.

Lemma removeAll_lookup_under (p q : string) fs :
  p <> "" -> under p q = true -> removeAll p fs !! q = None.
Proof.
  intros Hp Hu. unfold removeAll. apply String.eqb_neq in Hp. rewrite Hp.
  apply map_lookup_filter_None. right. intros x _. simpl. congruence.
Qed.

Lemma removeAll_lookup_other (p q : string) fs :
  under p q = false -> removeAll p fs !! q = fs !! q.
Proof.
  intros Hu. unfold removeAll. destruct (String.eqb p ""); [done|].
  destruct (fs !! q) as [n|] eqn:Hq.
  - by apply map_lookup_filter_Some.
  - apply map_lookup_filter_None. by left.
Qed.

Lemma parentOk_removeAll (p : string) fs :
  parentOk fs p = true -> parentOk (removeAll p fs) p = true.
Proof.
  unfold parentOk. destruct (dirName p) as [d|] eqn:Hd; [|done].
  intros H. apply orb_true_iff in H as [H|H]; [by rewrite H|].
  apply orb_true_iff. right.
  rewrite removeAll_lookup_other; [done|].
  apply dirName_shorter in Hd.
  destruct (under p d) eqn:Hu; [|done].
  apply under_length in Hu. lia.
Qed.

(** Removing a destination with all that is in it and making it anew
    leaves an empty directory, provided the directory the destination is
    an entry of exists. *)
Lemma mkdir_removeAll (p : string) fs :
  p <> "" -> parentOk fs p = true ->
  mkdir p (removeAll p fs) = (None, <[p := Dir]> (removeAll p fs)).
Proof.
  intros Hp Hpar. unfold mkdir.
  rewrite (proj2 (String.eqb_neq p "") Hp).
  rewrite removeAll_lookup_under by (done || apply under_refl).
  by rewrite parentOk_removeAll.
Qed.

Lemma emptyDirAt_clean (p : string) fs :
  p <> "" -> emptyDirAt (<[p := Dir]> (removeAll p fs)) p.
Proof.
  intros Hp. split.
  - apply lookup_insert_eq.
  - intros q Hu Hne. rewrite lookup_insert_ne by done.
    by apply removeAll_lookup_under.
Qed.

Lemma wellFormed_existing (p : string) fs :
wellFormed fs -> is_Some (fs !! p) -> p <> "" /\ parentOk fs p = true.
Proof.
intros [Hnil Hall] [n Hn]. split.
- intros ->. congruence.
- by apply (Hall p n).
Qed.

End FSProps.

(** ** tool: the destination is cleaned before any download *)

Section CleanProps.
Import Tool.
Variable env : Env.
Context {S X : Type}.
Variable oracle : Handler (OsWorld S).
Variable h : Handler X.

Ltac run :=
  cbn [exec bind ebind perform result final steps fst snd osHandler
       clientWritesDisk fs remote firstDownload List.find isDownload ev
       fmap option_fmap option_map ofErr].

Lemma getActionResult_fs (actionDigest : string) (w : OsWorld S) :
  fs (final (exec (osHandler oracle) (getActionResult env actionDigest) w))
    = fs w /\
  firstDownload
    (steps (exec (osHandler oracle) (getActionResult env actionDigest) w))
    = None /\
  Forall (fun s => isDownload (ev (fst s)) = false)
    (steps (exec (osHandler oracle) (getActionResult env actionDigest) w)).
Proof.
  unfold getActionResult.
  destruct (NewFromString env actionDigest) as [acDg|e]; run; [|done].
  destruct (fst (oracle (CheckActionCache _) w)) as [[r|]|e]; run;
    repeat split; repeat constructor.
Qed.

Lemma firstDownload_app {W} (a b : list (Event * W)) :
  Forall (fun s => isDownload (ev (fst s)) = false) a ->
  firstDownload (a ++ b) = firstDownload b.
Proof.
  unfold firstDownload. induction 1 as [|s a Hs _ IH]; [done|].
  cbn [app List.find]. by rewrite Hs.
Qed.

(** C9, as the code has it.  Once [DownloadDirectory] has been given a
    well-formed digest, and once [DownloadActionResult] has fetched the
    action result, the destination is removed with all its contents and
    made anew before any download begins.  Whatever the calls answer, the
    os calls made before the first download call are the removal of the
    destination and then its creation, and a download call does follow.
    For every existing destination path (a path as the file system has it,
    in a file system in which every entry lies in an existing directory)
    the first download call finds the destination an empty directory,
    whatever the downloads do afterwards.  [DownloadActionResult] given a
    malformed digest, or an action that is not in the cache, returns an
    error having asked for nothing but the look-up in the cache: it makes
    no os call, and the file system stays as it was. *)
Theorem destination_cleaned_before_download (w0 : X) (w : OsWorld S)
    (path : string) :
  (forall rootDigest dg,
      NewFromString env rootDigest = OK dg ->
      diskCalls <$>
        untilDownload
          (events (exec h (DownloadDirectory env rootDigest path) w0))
      = Some [OsRemoveAll path; OsMkdir path 493]) /\
  (forall actionDigest resPb,
      result (exec h (getActionResult env actionDigest) w0) = OK resPb ->
      diskCalls <$>
        untilDownload
          (events (exec h (DownloadActionResult env actionDigest path) w0))
      = Some [OsRemoveAll path; OsMkdir path 493]) /\
  (FS.wellFormed (fs w) ->
   is_Some (fs w !! path) ->
   (forall rootDigest dg,
       NewFromString env rootDigest = OK dg ->
       exists st,
         firstDownload
           (steps (exec (osHandler oracle)
                     (DownloadDirectory env rootDigest path) w)) = Some st /\
         FS.emptyDirAt (fs st) path) /\
   (forall actionDigest resPb,
       result (exec (osHandler oracle)
                 (getActionResult env actionDigest) w) = OK resPb ->
       exists st,
         firstDownload
           (steps (exec (osHandler oracle)
                     (DownloadActionResult env actionDigest path) w))
           = Some st /\
         FS.emptyDirAt (fs st) path)) /\
  (forall actionDigest,
      noResult env h w0 actionDigest ->
      isErr (result (exec h (DownloadActionResult env actionDigest path)
                       w0)) = true /\
      Forall isCacheLookup
        (effects (events (exec h
                            (DownloadActionResult env actionDigest path)
                            w0)))) /\
  (forall actionDigest,
      noResult env (osHandler oracle) w actionDigest ->
      fs (final (exec (osHandler oracle)
                   (DownloadActionResult env actionDigest path) w))
        = fs w).
Proof.
  split; [|split; [|split; [|split]]].
  - intros rootDigest dg Hdg. unfold DownloadDirectory, events.
    rewrite Hdg. reflexivity.
  - intros actionDigest resPb. unfold DownloadActionResult, getActionResult.
    destruct (NewFromString env actionDigest) as [acDg|e]; [|done].
    unfold events.
    cbn [exec bind ebind perform result final steps fst snd map].
    destruct (fst (h (CheckActionCache _) w0)) as [[r|]|e]; [|done..].
    intros _. reflexivity.
  - intros Hwf Hex.
    destruct (wellFormed_existing path (fs w) Hwf Hex) as [Hp Hpar]. split.
    + intros rootDigest dg Hdg. unfold DownloadDirectory. rewrite Hdg. run.
      rewrite mkdir_removeAll by done. run.
      eexists. split; [reflexivity|]. run. by apply emptyDirAt_clean.
    + intros actionDigest resPb Hres. unfold DownloadActionResult.
      unfold ebind. rewrite steps_bind.
      destruct (getActionResult_fs actionDigest w) as (Hfs & _ & Hnone).
      rewrite (firstDownload_app _ _ Hnone). rewrite Hres. run.
      rewrite Hfs. rewrite mkdir_removeAll by done. run.
      eexists. split; [reflexivity|]. run. by apply emptyDirAt_clean.
  - intros actionDigest Hno.
    unfold DownloadActionResult, getActionResult, events, effects.
    destruct Hno as [Hbad|(acDg & Hdg & Hmiss)].
    + destruct (NewFromString env actionDigest) as [acDg|e]; [done|].
      split; [done|constructor].
    + rewrite Hdg.
      cbn [exec bind ebind perform result final steps fst snd map].
      rewrite Hmiss. split; [done|]. by repeat constructor.
  - intros actionDigest Hno. unfold DownloadActionResult, getActionResult.
    destruct Hno as [Hbad|(acDg & Hdg & Hmiss)].
    + by destruct (NewFromString env actionDigest) as [acDg|e].
    + rewrite Hdg. run. cbn [osHandler clientWritesDisk fst] in Hmiss.
      by rewrite Hmiss.
Qed.

End CleanProps.

(** ** tool: where [DownloadBlob] puts the blob *)

Section DownloadBlobProps.
Import Tool.
Variable env : Env.
Context {S : Type}.
Variable oracle : Handler (OsWorld S).

Ltac run :=
  cbn [exec bind ebind perform result final steps fst snd osHandler
       clientWritesDisk fs remote ev ofErr negb].

(** C10.  For a digest whose blob the remote side holds, [DownloadBlob]
    with an empty path returns the blob's contents as its string, having
    read them into a temporary file that is gone when it returns; with a
    path it leaves the blob in the file at that path and returns the empty
    string. *)
Theorem DownloadBlob_result (w : OsWorld S) (blobDigest path name : string)
    (dg : Digest) (blob : list byte) :
  NewFromString env blobDigest = OK dg ->
  servesBlob oracle dg blob ->
  namesTempFile oracle name ->
  fs w !! name = None ->
  let run := exec (osHandler oracle) (DownloadBlob env blobDigest path) w in
  if String.eqb path "" then
    result run = OK (string_of_list_byte blob) /\
    fs (final run) !! name = None /\
    ReadBlobToFile dg name ∈ activity (steps run)
  else
    result run = OK "" /\
    fs (final run) !! path = Some (FS.File blob).
Proof.
  intros Hdg Hserve Hname Hfresh run. subst run. unfold DownloadBlob.
  destruct (String.eqb path "") eqn:Hpath.
  - run. rewrite Hname. run. rewrite Hfresh. run. rewrite Hdg. run.
    match goal with
    | |- context [oracle (ReadBlobToFile dg name) ?w0] =>
        destruct (Hserve name w0) as [Hok Hfs];
        destruct (oracle (ReadBlobToFile dg name) w0) as [[n|e] w1];
        [|done]
    end.
    cbn [fst snd] in *. run. unfold FS.readFile.
    rewrite Hfs, lookup_insert_eq. run. unfold FS.remove.
    rewrite Hfs, lookup_insert_eq. run.
    split; [done|]. split; [apply lookup_delete_eq|].
    unfold activity. apply list_elem_of_filter. split; [done|].
    cbn [map fst ev]. do 4 apply list_elem_of_further.
    apply list_elem_of_here.
  - rewrite Hdg. run.
    match goal with
    | |- context [oracle (ReadBlobToFile dg path) ?w0] =>
        destruct (Hserve path w0) as [Hok Hfs];
        destruct (oracle (ReadBlobToFile dg path) w0) as [[n|e] w1];
        [|done]
    end.
    cbn [fst snd] in *. run. split; [done|].
    rewrite Hfs. apply lookup_insert_eq.
Qed.

End DownloadBlobProps.

(** ** tool: the display of a flattened tree *)

Section FlattenProps.
Import Tool.
Variable env : Env.

Lemma append_assoc (a b c : string) : (a +:+ b) +:+ c = a +:+ (b +:+ c).
Proof.
  induction a as [|x a IH]; [done|].
  change (String x ((a +:+ b) +:+ c) = String x (a +:+ b +:+ c)).
  by rewrite IH.
Qed.

Lemma append_nil_r (a : string) : a +:+ "" = a.
Proof.
  induction a as [|x a IH]; [done|].
  change (String x (a +:+ "") = String x a). by rewrite IH.
Qed.

Lemma display_catLines (outputs : gmap string Output) (paths : list string) :
  forall acc,
    foldl (fun res path =>
             match outputs !! path with
             | Some output => res +:+ outputLine path output
             | None => res
             end) acc paths
    = acc +:+ catLines (linesOf outputs paths).
Proof.
  induction paths as [|p paths IH]; intros acc; cbn [foldl].
  - unfold linesOf. cbn [omap list_omap catLines foldr].
    by rewrite append_nil_r.
  - rewrite IH. unfold linesOf. cbn [omap list_omap].
    destruct (outputs !! p) as [o|]; cbn [fmap option_fmap option_map].
    + cbn [catLines foldr]. by rewrite append_assoc.
    + done.
Qed.

Lemma catLines_elem_of (ls : list string) (x : string) :
  x ∈ ls -> exists pre post, catLines ls = pre +:+ x +:+ post.
Proof.
  induction 1 as [x ls|x y ls _ (pre & post & IH)]; cbn [catLines foldr].
  - by exists "", (catLines ls).
  - exists (y +:+ pre), post. fold (catLines ls). rewrite IH.
    by rewrite append_assoc.
Qed.

Lemma linesOf_elem_of (outputs : gmap string Output) paths p o :
  p ∈ paths -> outputs !! p = Some o ->
  outputLine p o ∈ linesOf outputs paths.
Proof.
  intros Hp Ho. unfold linesOf. apply list_elem_of_omap.
  exists p. split; [done|]. by rewrite Ho.
Qed.

Lemma sortStrings_perm (l1 l2 : list string) :
  l1 ≡ₚ l2 -> sortStrings l1 = sortStrings l2.
Proof.
  intros H. unfold sortStrings.
  apply (Sorted_unique String.le); try apply Sorted_merge_sort; try apply _.
  by rewrite !merge_sort_Permutation.
Qed.

(** What [flattenTree] returns for a tree that flattens, under any order
    in which the runtime walks the map. *)
Lemma flattenTree_result {W} (h : Handler W) (w : W) (t : Tree)
    (outputs : gmap string Output) :
  fairRange h ->
  FlattenTree env t "" = OK outputs ->
  result (exec h (flattenTree env t) w) =
  OK (catLines (linesOf outputs (sortStrings (map_to_list outputs).*1)),
      sortStrings (map_to_list outputs).*1).
Proof.
  intros Hfair Hflat. unfold flattenTree. rewrite Hflat.
  cbn [exec bind ebind perform result final steps fst snd].
  rewrite foldl_snoc_id, app_nil_l, display_catLines.
  change ("" +:+ ?s) with s.
  by rewrite (sortStrings_perm _ _ (Hfair _ w)).
Qed.

(** C3.  The paths [flattenTree] returns are the paths of the flattened
    tree, each once, in ascending lexicographic (byte-wise) order; the
    display is the lines of these paths in that order; and any two runs on
    the same tree return the same display and the same paths, whatever
    order the runtime walks the map in. *)
Theorem flattenTree_sorted_deterministic {W} (h : Handler W) (w : W)
    (t : Tree) (outputs : gmap string Output) :
  fairRange h ->
  FlattenTree env t "" = OK outputs ->
  exists display paths,
    result (exec h (flattenTree env t) w) = OK (display, paths) /\
    paths ≡ₚ (map_to_list outputs).*1 /\
    NoDup paths /\
    StronglySorted String.le paths /\
    display = catLines (linesOf outputs paths) /\
    forall (W' : Type) (h' : Handler W') (w' : W'),
      fairRange h' ->
      result (exec h' (flattenTree env t) w') = OK (display, paths).
Proof.
  intros Hfair Hflat. eexists _, _.
  split; [by apply flattenTree_result|].
  assert (Hperm : sortStrings (map_to_list outputs).*1
                  ≡ₚ (map_to_list outputs).*1)
    by apply merge_sort_Permutation.
  split; [done|]. split.
  { rewrite Hperm. apply NoDup_fst_map_to_list. }
  split; [apply StronglySorted_merge_sort; apply _|].
  split; [done|].
  intros W' h' w' Hfair'. by apply flattenTree_result.
Qed.

End FlattenProps.

(** ** tree: what flattening keeps *)

Section TreeProps.
Import TreePkg.
Variable digestOf : Directory -> Digest.

Lemma mapResult_OK_elem_of {X Y} (f : X -> Result Y) (xs : list X) :
  forall ys x,
    mapResult f xs = OK ys -> x ∈ xs -> exists y, f x = OK y /\ y ∈ ys.
Proof.
  induction xs as [|x0 xs IH]; intros ys x Hm Hx; [by inversion Hx|].
  cbn [mapResult] in Hm.
  destruct (f x0) as [y0|] eqn:Hy0; [|done].
  destruct (mapResult f xs) as [ys0|] eqn:Hys0; [|done].
  injection Hm as <-.
  apply elem_of_cons in Hx as [->|Hx].
  - exists y0. split; [done|]. apply list_elem_of_here.
  - destruct (IH ys0 x eq_refl Hx) as (y & Hy & Hin).
    exists y. split; [done|]. by apply list_elem_of_further.
Qed.

Lemma isEmptyDir_no_subdir (d : Directory) dn :
  dn ∈ Directories d -> isEmptyDir d = false.
Proof.
  unfold isEmptyDir. intros H.
  destruct (Files d), (Directories d), (Symlinks d); try done;
    by inversion H.
Qed.

Lemma isEmptyDir_no_symlink (d : Directory) sn :
  sn ∈ Symlinks d -> isEmptyDir d = false.
Proof.
  unfold isEmptyDir. intros H.
  destruct (Files d), (Directories d), (Symlinks d); try done;
    by inversion H.
Qed.

(** A directory found below a directory that flattens, flattens too, and
    its entries are among those of the directory above. *)
Lemma flattenDir_reach children p d q e :
  reach digestOf children p d q e ->
  forall depth entries,
    flattenDir digestOf depth children p d = OK entries ->
    exists depth' entries',
      flattenDir digestOf depth' children q e = OK entries' /\
      forall x, x ∈ entries' -> x ∈ entries.
Proof.
  induction 1 as [p d|p d dn d' q e Hdn Hres _ IH]; intros depth entries Hf.
  - by exists depth, entries.
  - destruct depth as [|depth]; [done|]. cbn [flattenDir] in Hf.
    rewrite (isEmptyDir_no_subdir _ _ Hdn) in Hf.
    destruct (mapResult _ (Directories d)) as [subs|] eqn:Hsubs; [|done].
    injection Hf as <-.
    destruct (mapResult_OK_elem_of _ _ _ _ Hsubs Hdn) as (y & Hy & Hin).
    rewrite Hres in Hy.
    destruct (IH _ _ Hy) as (depth' & entries' & Hf' & Hsub).
    exists depth', entries'. split; [done|].
    intros x Hx. apply elem_of_app. right. apply elem_of_app. right.
    apply list_elem_of_In, in_concat. exists y.
    split; apply list_elem_of_In; auto.
Qed.

(** An empty directory below the root has its entry among the entries. *)
Lemma flattenDir_empty_dir children p d q e depth entries :
  reach digestOf children p d q e ->
  isEmptyDir e = true ->
  flattenDir digestOf depth children p d = OK entries ->
  emptyDirEntry digestOf q e ∈ entries.
Proof.
  intros Hreach Hempty Hf.
  destruct (flattenDir_reach _ _ _ _ _ Hreach _ _ Hf)
    as (depth' & entries' & Hf' & Hsub).
  apply Hsub. destruct depth' as [|depth']; [done|].
  cbn [flattenDir] in Hf'. rewrite Hempty in Hf'. injection Hf' as <-.
  apply list_elem_of_here.
Qed.

(** A symlink of a directory below the root has its entry, with its
    target as it is, among the entries. *)
Lemma flattenDir_symlink children p d q e sn depth entries :
  reach digestOf children p d q e ->
  sn ∈ Symlinks e ->
  flattenDir digestOf depth children p d = OK entries ->
  symlinkEntry q sn ∈ entries.
Proof.
  intros Hreach Hsn Hf.
  destruct (flattenDir_reach _ _ _ _ _ Hreach _ _ Hf)
    as (depth' & entries' & Hf' & Hsub).
  apply Hsub. destruct depth' as [|depth']; [done|].
  cbn [flattenDir] in Hf'. rewrite (isEmptyDir_no_symlink _ _ Hsn) in Hf'.
  destruct (mapResult _ (Directories e)) as [subs|]; [|done].
  injection Hf' as <-.
  apply elem_of_app. right. apply elem_of_app. left.
  by apply list_elem_of_fmap_2.
Qed.

(** A subdirectory whose digest does not resolve makes flattening fail. *)
Lemma flattenDir_missing_node children p d q e dn depth :
  reach digestOf children p d q e ->
  dn ∈ Directories e ->
  resolve digestOf children
    (DigestPkg.NewFromProtoUnvalidated (dnDigest dn)) = None ->
  isErr (flattenDir digestOf depth children p d) = true.
Proof.
  intros Hreach Hdn Hres.
  destruct (flattenDir digestOf depth children p d) as [entries|] eqn:Hf;
    [|done].
  destruct (flattenDir_reach _ _ _ _ _ Hreach _ _ Hf)
    as (depth' & entries' & Hf' & _).
  destruct depth' as [|depth']; [done|].
  cbn [flattenDir] in Hf'. rewrite (isEmptyDir_no_subdir _ _ Hdn) in Hf'.
  destruct (mapResult _ (Directories e)) as [subs|] eqn:Hsubs; [|done].
  destruct (mapResult_OK_elem_of _ _ _ _ Hsubs Hdn) as (y & Hy & _).
  by rewrite Hres in Hy.
Qed.

Lemma FlattenTree_missing_node (t : Tree) root q e dn rootPath :
  Root t = Some root ->
  reach digestOf (Children t) rootPath root q e ->
  dn ∈ Directories e ->
  resolve digestOf (Children t)
    (DigestPkg.NewFromProtoUnvalidated (dnDigest dn)) = None ->
  isErr (FlattenTree digestOf t rootPath) = true.
Proof.
  intros Hroot Hreach Hdn Hres. unfold FlattenTree, flattenEntries.
  rewrite Hroot.
  pose proof (flattenDir_missing_node _ _ _ _ _ _
                (S (length (Children t))) Hreach Hdn Hres) as H.
  by destruct (flattenDir _ _ _ _ _).
Qed.

(** With no two entries at one path, the map holds every entry. *)
Lemma FlattenTree_lookup (t : Tree) rootPath entries path output :
  flattenEntries digestOf t rootPath = OK entries ->
  NoDup entries.*1 ->
  (path, output) ∈ entries ->
  exists outputs,
    FlattenTree digestOf t rootPath = OK outputs /\
    outputs !! path = Some output.
Proof.
  intros Hf Hnd Hin. unfold FlattenTree. rewrite Hf.
  eexists. split; [done|].
  apply elem_of_list_to_map_1.
  - by rewrite fmap_reverse, reverse_Permutation.
  - by apply elem_of_reverse.
Qed.

End TreeProps.

(** ** tool and tree: empty directories and symlinks in the display *)

Section FlattenEndToEnd.
Variable env : Tool.Env.
Variable digestOf : Directory -> Digest.
Context {W : Type}.
Variable h : Handler W.

(** C6.  An empty directory found in a tree (whose entries lie at distinct
    paths) is in the flattened result, at its path, as an entry of the
    empty-directory kind; [flattenTree] returns its path once and prints
    its line as a directory. *)
Theorem empty_directory_kept (w : W) (t : Tree) (root : Directory)
    (q : string) (e : Directory) (entries : list (string * Output)) :
  Tool.FlattenTree env = TreePkg.FlattenTree digestOf ->
  fairRange h ->
  Root t = Some root ->
  TreePkg.reach digestOf (Children t) "" root q e ->
  TreePkg.isEmptyDir e = true ->
  TreePkg.flattenEntries digestOf t "" = OK entries ->
  NoDup entries.*1 ->
  exists outputs display paths,
    Tool.FlattenTree env t "" = OK outputs /\
    outputs !! q = Some {| oDigest := digestOf e;
                           IsEmptyDirectory := true;
                           SymlinkTarget := "" |} /\
    result (exec h (Tool.flattenTree env t) w) = OK (display, paths) /\
    q ∈ paths /\ NoDup paths /\
    exists pre post,
      display =
      pre +:+ (q +:+ ": [Directory digest: "
                 +:+ Digest_String (digestOf e) +:+ "]" +:+ newline)
          +:+ post.
Proof.
  intros Henv Hfair Hroot Hreach Hempty Hentries Hnd.
  assert (Hin : TreePkg.emptyDirEntry digestOf q e ∈ entries).
  { unfold TreePkg.flattenEntries in Hentries. rewrite Hroot in Hentries.
    eapply flattenDir_empty_dir; eauto. }
  destruct (FlattenTree_lookup digestOf t "" entries _ _ Hentries Hnd Hin)
    as (outputs & Hflat & Hlook).
  rewrite <- Henv in Hflat.
  exists outputs. eexists _, _. split; [done|]. split; [done|].
  split; [by apply flattenTree_result|].
  assert (Hq : q ∈ sortStrings (map_to_list outputs).*1).
  { unfold sortStrings. rewrite merge_sort_Permutation.
    apply elem_of_keys. by eexists. }
  split; [done|]. split.
  { unfold sortStrings. rewrite merge_sort_Permutation.
    apply NoDup_fst_map_to_list. }
  apply catLines_elem_of.
  by apply (linesOf_elem_of outputs _ q _ Hq Hlook).
Qed.

(** C7.  A symlink found in a tree (whose entries lie at distinct paths)
    is in the flattened result with its target string as it is in the
    tree, and the line [flattenTree] prints for it shows that very
    string.  (The code tells a symlink by its target not being empty: with
    an empty target there is no target to show, and the line is that of a
    file.) *)
Theorem symlink_target_literal (w : W) (t : Tree) (root : Directory)
    (q : string) (e : Directory) (sn : SymlinkNode)
    (entries : list (string * Output)) :
  Tool.FlattenTree env = TreePkg.FlattenTree digestOf ->
  fairRange h ->
  Root t = Some root ->
  TreePkg.reach digestOf (Children t) "" root q e ->
  sn ∈ Symlinks e ->
  TreePkg.flattenEntries digestOf t "" = OK entries ->
  NoDup entries.*1 ->
  let path := TreePkg.joinPath q (snName sn) in
  exists outputs output display paths,
    Tool.FlattenTree env t "" = OK outputs /\
    outputs !! path = Some output /\
    SymlinkTarget output = snTarget sn /\
    IsEmptyDirectory output = false /\
    result (exec h (Tool.flattenTree env t) w) = OK (display, paths) /\
    exists pre post,
      display =
      pre +:+ (if String.eqb (snTarget sn) ""
               then path +:+ ": [File digest: "
                      +:+ Digest_String (oDigest output) +:+ "]"
                      +:+ newline
               else path +:+ ": [Symlink digest: "
                      +:+ Digest_String (oDigest output)
                      +:+ ", Symlink Target: " +:+ snTarget sn +:+ "]"
                      +:+ newline)
          +:+ post.
Proof.
  intros Henv Hfair Hroot Hreach Hsn Hentries Hnd path.
  assert (Hin : TreePkg.symlinkEntry q sn ∈ entries).
  { unfold TreePkg.flattenEntries in Hentries. rewrite Hroot in Hentries.
    eapply flattenDir_symlink; eauto. }
  destruct (FlattenTree_lookup digestOf t "" entries _ _ Hentries Hnd Hin)
    as (outputs & Hflat & Hlook).
  rewrite <- Henv in Hflat.
  exists outputs. eexists _, _, _. split; [done|]. split; [exact Hlook|].
  split; [done|]. split; [done|].
  split; [by apply flattenTree_result|].
  assert (Hq : path ∈ sortStrings (map_to_list outputs).*1).
  { unfold sortStrings. rewrite merge_sort_Permutation.
    apply elem_of_keys. by eexists. }
  destruct (catLines_elem_of _ _
              (linesOf_elem_of outputs _ path _ Hq Hlook))
    as (pre & post & Hdisp).
  exists pre, post. rewrite Hdisp. f_equal. f_equal.
  unfold Tool.outputLine. cbn [IsEmptyDirectory SymlinkTarget oDigest].
  by destruct (String.eqb (snTarget sn) "").
Qed.

End FlattenEndToEnd.

(** ** tool: a tree that does not resolve *)

Section UnresolvedProps.
Import Tool.
Variable env : Env.
Context {W : Type}.
Variable h : Handler W.

Lemma fails_ebind_l {A B} (p : Prog (Result A)) (k : A -> Prog (Result B)) :
  fails h p -> fails h (ebind p k).
Proof.
  intros Hp w. unfold ebind. rewrite result_bind. specialize (Hp w).
  by destruct (result (exec h p w)).
Qed.

Lemma fails_ebind_r {A B} (p : Prog (Result A)) (k : A -> Prog (Result B)) :
  (forall a, fails h (k a)) -> fails h (ebind p k).
Proof.
  intros Hk w. unfold ebind. rewrite result_bind.
  destruct (result (exec h p w)); [apply Hk|done].
Qed.

Lemma fails_bind {A B} (p : Prog A) (k : A -> Prog (Result B)) :
  (forall a, fails h (k a)) -> fails h (bind p k).
Proof. intros Hk w. rewrite result_bind. apply Hk. Qed.

(** What follows the reading of the action only has to fail for the
    actions the remote side may answer. *)
Lemma fails_after_action {B} (dg : Digest) (k : Action -> Prog (Result B)) :
  (forall a w, fst (h (ReadProto KAction dg) w) = OK a -> fails h (k a)) ->
  fails h (ebind (perform (ReadProto KAction dg)) k).
Proof.
  intros Hk w. unfold ebind.
  cbn [bind perform exec result final steps fst snd].
  destruct (h (ReadProto KAction dg) w) as [[a|e] w1] eqn:Hr;
    cbn [fst snd]; [|done].
  apply (Hk a w). by rewrite Hr.
Qed.

Section Unresolved.
(** The root digests that do not resolve. *)
Variable bad : option pbDigest -> Prop.
Hypothesis Hbad :
  forall root w,
    bad root -> unresolved env (fst (h (GetDirectoryTree root) w)).

Lemma getInputTree_unresolved (root : option pbDigest) :
  bad root -> fails h (getInputTree env root).
Proof.
  intros Hroot w. unfold getInputTree, ebind.
  destruct (NewFromProto env root) as [dg|e]; [|reflexivity].
  cbn [bind perform exec]. unfold result. cbn [fst snd].
  specialize (Hbad root w Hroot).
  destruct (fst (h (GetDirectoryTree root) w)) as [[|dirs0 dirs]|e];
    try reflexivity.
  cbn [unresolved] in Hbad. rewrite exec_bind. cbn [fst snd].
  unfold flattenTree, ebind.
  destruct (FlattenTree env _ "") as [outputs|e]; [done|].
  reflexivity.
Qed.
End Unresolved.

(** C8.  When the directory nodes of a root digest cannot be had (the
    call fails, or returns no node at all, or returns nodes that do not
    flatten), [getInputTree] returns an error; and when this is so of the
    input root of every action the remote side answers, [ShowAction] and
    [ReexecuteAction] return an error from every state. *)
Theorem unresolved_tree_fails (bad : option pbDigest -> Prop) :
  (forall root w,
      bad root -> unresolved env (fst (h (GetDirectoryTree root) w))) ->
  (forall dg w a,
      fst (h (ReadProto KAction dg) w) = OK a -> bad (InputRootDigest a)) ->
  (forall root, bad root -> fails h (getInputTree env root)) /\
  (forall actionDigest, fails h (ShowAction env actionDigest)) /\
  (forall actionDigest inputRoot,
      fails h (ReexecuteAction env actionDigest inputRoot)).
Proof.
  intros Hbad Haction.
  split; [intros root Hroot; by apply (getInputTree_unresolved bad)|].
  split.
  - intros actionDigest. unfold ShowAction. cbv zeta.
    apply fails_ebind_r; intros resPb.
    apply fails_ebind_r; intros acDg.
    apply fails_after_action; intros actionProto w Ha.
    apply fails_ebind_r; intros cmdDg.
    apply fails_bind; intros _.
    apply fails_ebind_r; intros commandProto.
    apply fails_bind; intros _.
    apply fails_ebind_l, (getInputTree_unresolved bad); eauto.
  - intros actionDigest inputRoot. unfold ReexecuteAction. cbv zeta.
    apply fails_ebind_r; intros acDg.
    apply fails_after_action; intros actionProto w Ha.
    apply fails_ebind_r; intros cmdDg.
    apply fails_bind; intros _.
    apply fails_ebind_r; intros commandProto.
    apply fails_ebind_l, (getInputTree_unresolved bad); eauto.
Qed.

End UnresolvedProps.

(** ** The theorems at work on the examples *)

Section Witnesses.
Import Examples.

Lemma failingRemote_fair : fairRange failingRemote.
Proof. intros keys w. reflexivity. Qed.

Lemma emptyTreeRemote_fair : fairRange emptyTreeRemote.
Proof. intros keys w. reflexivity. Qed.

Lemma exampleTree_reach_b :
  TreePkg.reach nameDigest (Children exampleTree) "" dirRoot "b" dirB.
Proof.
  eapply (TreePkg.reach_sub nameDigest _ "" dirRoot
            {| dnName := "b";
               dnDigest := Some {| pbHash := ""; SizeBytes := 0 |} |} dirB).
  - apply list_elem_of_here.
  - reflexivity.
  - apply TreePkg.reach_here.
Qed.

Lemma exampleEntries_NoDup : NoDup exampleEntries.*1.
Proof. apply (bool_decide_unpack _). by vm_compute. Qed.

(** The end-to-end example of the specification: the three entries, in
    lexicographic order. *)
Example flattenTree_example :
  result (exec failingRemote (Tool.flattenTree env exampleTree) oldWorld)
  = OK ("a.txt: [File digest: " +:+ hashA +:+ "/10]" +:+ newline
          +:+ "b: [Directory digest: /0]" +:+ newline
          +:+ "c: [Symlink digest: /0, Symlink Target: a.txt]" +:+ newline,
        ["a.txt"; "b"; "c"]).
Proof. vm_compute. reflexivity. Qed.

End Witnesses.

Lemma NewClientFromFlags_timeouts_witness :
  isErr (result Examples.flagRun) = false /\
  (exists timeouts,
      effective Examples.flagEnv Examples.flagValues timeouts /\
      dialled (steps Examples.flagRun) =
        [[client_CASConcurrency 500; client_RPCTimeouts timeouts]]).
Proof.
  destruct (NewClientFromFlags_timeouts Examples.flagEnv Examples.flagValues
              Examples.failingRemote Examples.oldWorld [])
    as [Hok _].
  - intros keys w. reflexivity.
  - vm_compute. lia.
  - split; [reflexivity|].
    destruct Hok as (timeouts & Heff & _ & Hdial).
    + intros rpc s Hs.
      destruct (decide (rpc = "default")) as [->|Hne].
      * vm_compute in Hs. injection Hs as <-. reflexivity.
      * unfold Examples.flagValues, Flags.RPCTimeouts in Hs.
        rewrite lookup_insert_ne in Hs by done. done.
    + exists timeouts. split; [exact Heff|]. by apply Hdial.
Defined.

Lemma flattenTree_sorted_deterministic_witness :
  exists display paths,
    result (exec Examples.failingRemote
              (Tool.flattenTree Examples.env Examples.exampleTree)
              Examples.oldWorld) = OK (display, paths) /\
    paths ≡ₚ (map_to_list Examples.exampleOutputs).*1 /\
    NoDup paths /\
    StronglySorted String.le paths /\
    display = catLines (linesOf Examples.exampleOutputs paths) /\
    forall (W' : Type) (h' : Handler W') (w' : W'),
      fairRange h' ->
      result (exec h' (Tool.flattenTree Examples.env Examples.exampleTree) w')
      = OK (display, paths).
Proof.
  apply (flattenTree_sorted_deterministic Examples.env Examples.failingRemote
           Examples.oldWorld Examples.exampleTree Examples.exampleOutputs).
  - intros keys w. reflexivity.
  - vm_compute. reflexivity.
Defined.

Lemma empty_directory_kept_witness :
  exists outputs display paths,
    Tool.FlattenTree Examples.env Examples.exampleTree "" = OK outputs /\
    outputs !! "b" = Some {| oDigest := Examples.nameDigest Examples.dirB;
                             IsEmptyDirectory := true;
                             SymlinkTarget := "" |} /\
    result (exec Examples.failingRemote
              (Tool.flattenTree Examples.env Examples.exampleTree)
              Examples.oldWorld) = OK (display, paths) /\
    "b" ∈ paths /\ NoDup paths /\
    exists pre post,
      display =
      pre +:+ ("b" +:+ ": [Directory digest: "
                 +:+ Digest_String (Examples.nameDigest Examples.dirB)
                 +:+ "]" +:+ newline)
          +:+ post.
Proof.
  apply (empty_directory_kept Examples.env Examples.nameDigest
           Examples.failingRemote Examples.oldWorld Examples.exampleTree
           Examples.dirRoot "b" Examples.dirB Examples.exampleEntries).
  - reflexivity.
  - intros keys w. reflexivity.
  - reflexivity.
  - apply exampleTree_reach_b.
  - reflexivity.
  - vm_compute. reflexivity.
  - apply exampleEntries_NoDup.
Defined.

Lemma symlink_target_literal_witness :
  exists outputs output display paths,
    Tool.FlattenTree Examples.env Examples.exampleTree "" = OK outputs /\
    outputs !! "c" = Some output /\
    SymlinkTarget output = "a.txt" /\
    IsEmptyDirectory output = false /\
    result (exec Examples.failingRemote
              (Tool.flattenTree Examples.env Examples.exampleTree)
              Examples.oldWorld) = OK (display, paths) /\
    exists pre post,
      display =
      pre +:+ ("c" +:+ ": [Symlink digest: "
                 +:+ Digest_String (oDigest output)
                 +:+ ", Symlink Target: " +:+ "a.txt" +:+ "]" +:+ newline)
          +:+ post.
Proof.
  apply (symlink_target_literal Examples.env Examples.nameDigest
           Examples.failingRemote Examples.oldWorld Examples.exampleTree
           Examples.dirRoot "" Examples.dirRoot
           {| snName := "c"; snTarget := "a.txt" |} Examples.exampleEntries).
  - reflexivity.
  - intros keys w. reflexivity.
  - reflexivity.
  - apply TreePkg.reach_here.
  - apply list_elem_of_here.
  - vm_compute. reflexivity.
  - apply exampleEntries_NoDup.
Defined.

Lemma unresolved_tree_fails_witness :
  (forall root, fails Examples.emptyTreeRemote
                  (Tool.getInputTree Examples.env root)) /\
  fails Examples.emptyTreeRemote
    (Tool.ShowAction Examples.env Examples.goodDigest) /\
  fails Examples.emptyTreeRemote
    (Tool.ReexecuteAction Examples.env Examples.goodDigest "").
Proof.
  destruct (unresolved_tree_fails Examples.env Examples.emptyTreeRemote
              (fun _ => True)) as (Hget & Hshow & Hreexec).
  - intros root w _. exact I.
  - intros dg w a _. exact I.
  - split; [intros root; by apply Hget|]. split; [apply Hshow|apply Hreexec].
Defined.

(** The destination [/out] holds a file of an earlier run.  With a digest
    that parses both calls clean it before the first download; with one
    that does not, [DownloadActionResult] leaves it as it was. *)
Lemma destination_cleaned_before_download_witness :
  let dir :=
    exec (osHandler Examples.servingRemote)
      (Tool.DownloadDirectory Examples.env Examples.goodDigest "/out")
      Examples.oldWorld in
  let res :=
    exec (osHandler Examples.servingRemote)
      (Tool.DownloadActionResult Examples.env Examples.goodDigest "/out")
      Examples.oldWorld in
  let bad :=
    exec (osHandler Examples.servingRemote)
      (Tool.DownloadActionResult Examples.env Examples.badDigest "/out")
      Examples.oldWorld in
  diskCalls <$> untilDownload (events dir)
    = Some [OsRemoveAll "/out"; OsMkdir "/out" 493] /\
  diskCalls <$> untilDownload (events res)
    = Some [OsRemoveAll "/out"; OsMkdir "/out" 493] /\
  (exists st, firstDownload (steps dir) = Some st /\
              FS.emptyDirAt (fs st) "/out") /\
  (exists st, firstDownload (steps res) = Some st /\
              FS.emptyDirAt (fs st) "/out") /\
  isErr (result bad) = true /\
  Forall isCacheLookup (effects (events bad)) /\
  fs (final bad) = Examples.oldFs.
Proof.
  destruct (destination_cleaned_before_download Examples.env
              Examples.servingRemote (osHandler Examples.servingRemote)
              Examples.oldWorld Examples.oldWorld "/out")
    as (Hdir & Hres & Hfs & Hbad & Hkeep).
  destruct Hfs as [Hfsdir Hfsres].
  { split; [by vm_compute|]. apply (bool_decide_unpack _). by vm_compute. }
  { exists FS.Dir. by vm_compute. }
  assert (Hno : noResult Examples.env (osHandler Examples.servingRemote)
                  Examples.oldWorld Examples.badDigest)
    by (left; by vm_compute).
  split; [apply (Hdir Examples.goodDigest Examples.digestA); by vm_compute|].
  split; [apply (Hres Examples.goodDigest Examples.emptyResult);
          by vm_compute|].
  split; [apply (Hfsdir Examples.goodDigest Examples.digestA);
          by vm_compute|].
  split; [apply (Hfsres Examples.goodDigest Examples.emptyResult);
          by vm_compute|].
  split; [by apply (Hbad Examples.badDigest)|].
  split; [by apply (Hbad Examples.badDigest)|].
  by apply (Hkeep Examples.badDigest).
Defined.

Lemma DownloadBlob_result_witness :
  result (exec (osHandler Examples.servingRemote)
            (Tool.DownloadBlob Examples.env Examples.goodDigest "")
            Examples.oldWorld) = OK (string_of_list_byte Examples.blobA) /\
  fs (final (exec (osHandler Examples.servingRemote)
               (Tool.DownloadBlob Examples.env Examples.goodDigest "")
               Examples.oldWorld)) !! "/tmp/blob0" = None /\
  ReadBlobToFile Examples.digestA "/tmp/blob0"
    ∈ activity (steps (exec (osHandler Examples.servingRemote)
                         (Tool.DownloadBlob Examples.env Examples.goodDigest
                            "")
                         Examples.oldWorld)).
Proof.
  apply (DownloadBlob_result Examples.env Examples.servingRemote
           Examples.oldWorld Examples.goodDigest "" "/tmp/blob0"
           Examples.digestA Examples.blobA).
  - vm_compute. reflexivity.
  - intros path w. split; reflexivity.
  - intros dir pattern w. reflexivity.
  - vm_compute. reflexivity.
Defined.

(** ** Where the code does otherwise *)

(** C2, as stated, fails: the download of the action outputs and the read
    of the stdout blob both fail, and [DownloadActionResult] returns a plain
    success. *)
Lemma DownloadActionResult_failure_returns_success :
  filter (fun s => isFailedDownload s = true)
         (events Examples.failedResultRun)
    = [{| ev := DownloadActionOutputs Examples.emptyResult "/out";
          resp := Some (Failure "unavailable") |};
       {| ev := ReadBlob Examples.digestA;
          resp := ([], Some (Failure "unavailable")) |}] /\
  result Examples.failedResultRun = OK tt.
Proof. vm_compute. split; reflexivity. Qed.

(** C9, as stated, fails: with a malformed digest [DownloadActionResult]
    returns before it touches the destination, whose earlier contents
    stay. *)
Lemma DownloadActionResult_malformed_keeps_destination :
  result Examples.badResultRun = Err MalformedDigest /\
  steps Examples.badResultRun = [] /\
  fs (final Examples.badResultRun) !! "/out/old.txt"
    = Some (FS.File [x6f; x6c; x64]).
Proof. vm_compute. repeat split; reflexivity. Qed.

(** * More of the code *)

(** ** Every run of a program *)

Section Logic.
Context {W : Type}.
Variable h : Handler W.

Lemma events_bind {A B} (p : Prog A) (f : A -> Prog B) (w : W) :
  events (exec h (bind p f) w) =
  events (exec h p w)
    ++ events (exec h (f (result (exec h p w))) (final (exec h p w))).
Proof. unfold events. by rewrite steps_bind, map_app. Qed.

Lemma exec_ebind_Err {A B} (p : Prog (Result A)) (k : A -> Prog (Result B))
    (w : W) (e : error) :
  result (exec h p w) = Err e ->
  exec h (ebind p k) w = (Err e, final (exec h p w), steps (exec h p w)).
Proof.
  intros Hp. unfold ebind. rewrite exec_bind, Hp.
  cbn [exec result final steps fst snd]. by rewrite app_nil_r.
Qed.

Lemma wp_sound {A} (ok : Event -> Prop) (p : Prog A) :
  answers ok h ->
  forall (Q : list Event -> A -> Prop) past w,
    wp ok p Q past ->
    Q (past ++ events (exec h p w)) (result (exec h p w)).
Proof.
  intros Hok. induction p as [a|e k IH]; intros Q past w Hwp.
  - cbn. by rewrite app_nil_r.
  - cbn [wp] in Hwp. specialize (Hwp (fst (h e w)) (Hok e w)).
    apply (IH _ _ _ (snd (h e w))) in Hwp.
    unfold events, result in *. cbn [exec steps fst snd map].
    by rewrite <- app_assoc in Hwp.
Qed.

End Logic.

Lemma anyAnswer_answers {W} (h : Handler W) : answers anyAnswer h.
Proof. intros e w. exact I. Qed.

Lemma wp_mono {A} (ok : Event -> Prop) (p : Prog A)
    (Q Q' : list Event -> A -> Prop) :
  (forall hist a, Q hist a -> Q' hist a) ->
  forall past, wp ok p Q past -> wp ok p Q' past.
Proof.
  intros HQ. induction p as [a|e k IH]; intros past Hwp; cbn [wp] in *.
  - by apply HQ.
  - intros r Hr. by apply IH, Hwp.
Qed.

Lemma wp_bind {A B} (ok : Event -> Prop) (p : Prog A) (f : A -> Prog B)
    (Q : list Event -> B -> Prop) :
  forall past,
    wp ok p (fun hist a => wp ok (f a) Q hist) past ->
    wp ok (bind p f) Q past.
Proof.
  induction p as [a|e k IH]; intros past Hwp; cbn [wp bind] in *.
  - done.
  - intros r Hr. by apply IH, Hwp.
Qed.

Lemma wp_ebind {A B} (ok : Event -> Prop) (p : Prog (Result A))
    (k : A -> Prog (Result B)) (Q : list Event -> Result B -> Prop) past :
  wp ok p (fun hist r => match r with
                         | OK a => wp ok (k a) Q hist
                         | Err e => Q hist (Err e)
                         end) past ->
  wp ok (ebind p k) Q past.
Proof.
  intros Hwp. unfold ebind. apply wp_bind.
  eapply wp_mono; [|exact Hwp]. intros hist [a|e] H; exact H.
Qed.

Lemma only_mono {A} (P P' : Eff -> Prop) (p : Prog A) :
  (forall e, P e -> P' e) -> only P p -> only P' p.
Proof.
  intros HP. induction p as [a|e k IH]; cbn [only]; [done|].
  intros [He Hk]. split; [by apply HP|]. intros r. by apply IH.
Qed.

Lemma only_bind {A B} (P : Eff -> Prop) (p : Prog A) (f : A -> Prog B) :
  only P p -> (forall a, only P (f a)) -> only P (bind p f).
Proof.
  intros Hp Hf. induction p as [a|e k IH]; cbn [only bind] in *.
  - apply Hf.
  - destruct Hp as [He Hk]. split; [done|]. intros r. by apply IH.
Qed.

Lemma only_ebind {A B} (P : Eff -> Prop) (p : Prog (Result A))
    (k : A -> Prog (Result B)) :
  only P p -> (forall a, only P (k a)) -> only P (ebind p k).
Proof.
  intros Hp Hk. unfold ebind. apply only_bind; [done|].
  intros [a|e]; [apply Hk|exact I].
Qed.

Lemma only_perform (P : Eff -> Prop) (e : Eff) : P e -> only P (perform e).
Proof. intros He. split; [done|]. intros r. exact I. Qed.

Lemma only_forEach {X} (P : Eff -> Prop) (body : X -> Prog unit)
    (xs : list X) :
  (forall x, only P (body x)) -> only P (forEach xs body).
Proof.
  intros Hbody. induction xs as [|x xs IH]; cbn [forEach]; [exact I|].
  apply only_bind; [apply Hbody|]. intros _. exact IH.
Qed.

Lemma only_foldM {X S} (P : Eff -> Prop) (body : S -> X -> Prog (Result S))
    (xs : list X) :
  (forall s x, only P (body s x)) -> forall s, only P (foldM body xs s).
Proof.
  intros Hbody. induction xs as [|x xs IH]; intros s; cbn [foldM]; [exact I|].
  apply only_bind; [apply Hbody|]. intros [s'|e]; [apply IH|exact I].
Qed.

(** A program all of whose effects satisfy [P] adds to the history only
    events of such effects. *)
Lemma wp_only {A} (ok : Event -> Prop) (P : Eff -> Prop) (p : Prog A)
    (Q : list Event -> A -> Prop) :
  only P p ->
  forall past,
    (forall evs a, Forall (fun s => P (ev s)) evs -> Q (past ++ evs) a) ->
    wp ok p Q past.
Proof.
  induction p as [a|e k IH]; intros Hp past HQ; cbn [wp only] in *.
  - rewrite <- (app_nil_r past). by apply HQ.
  - destruct Hp as [He Hk]. intros r Hr. apply IH; [apply Hk|].
    intros evs a Hevs. rewrite <- app_assoc. apply HQ.
    constructor; [exact He|exact Hevs].
Qed.

Lemma only_events {A W} (h : Handler W) (P : Eff -> Prop) (p : Prog A) w :
  only P p -> Forall (fun s => P (ev s)) (events (exec h p w)).
Proof.
  intros Hp.
  apply (wp_sound h anyAnswer p (anyAnswer_answers h)
           (fun hist _ => Forall (fun s => P (ev s)) hist) [] w).
  by apply (wp_only _ P).
Qed.

Lemma wp_forEach {X} (ok : Event -> Prop) (body : X -> Prog unit)
    (Inv : list Event -> Prop) (xs : list X) :
  (forall x past, Inv past -> wp ok (body x) (fun hist _ => Inv hist) past) ->
  forall past, Inv past ->
               wp ok (forEach xs body) (fun hist _ => Inv hist) past.
Proof.
  intros Hbody. induction xs as [|x xs IH]; intros past Hpast;
    cbn [forEach wp]; [done|].
  apply wp_bind. eapply wp_mono; [|by apply Hbody].
  intros hist u Hhist. by apply IH.
Qed.

Lemma fairRange_answers {W} (h : Handler W) :
  fairRange h -> answers fairAnswer h.
Proof. intros Hfair e w. destruct e; try exact I. apply Hfair. Qed.

(** Runs a program symbolically, splitting on what its branches look at. *)
Ltac wp_run :=
  repeat first
    [ progress cbn [wp bind ebind perform ofErr negb]
    | progress unfold ebind
    | match goal with
      | |- forall _, _ => intro
      | |- wp _ (match ?x with _ => _ end) _ _ => destruct x eqn:?
      | |- wp _ (bind (match ?x with _ => _ end) _) _ _ => destruct x eqn:?
      | |- wp _ (if ?b then _ else _) _ _ => destruct b eqn:?
      | |- wp _ (bind (if ?b then _ else _) _) _ _ => destruct b eqn:?
      | |- wp _ (bind (bind (match ?x with _ => _ end) _) _) _ _ =>
          destruct x eqn:?
      | |- wp _ (bind (bind (if ?b then _ else _) _) _) _ _ =>
          destruct b eqn:?
      end ].


(** ** tool: the command built from the wire *)

Section CommandProps.
Import Tool.

Lemma foldl_insert_lookup (l : list (string * string)) :
  forall (m : gmap string string) name,
    foldl (fun m ev => <[fst ev := snd ev]> m) m l !! name =
    match last (filter (fun ev => fst ev = name) l) with
    | Some ev => Some (snd ev)
    | None => m !! name
    end.
Proof.
  induction l as [|x l IH]; intros m name; cbn [foldl]; [done|].
  rewrite IH. destruct (decide (fst x = name)) as [Hx|Hx].
  - rewrite filter_cons_True by done. rewrite last_cons.
    destruct (last (filter _ l)); [done|].
    by rewrite <- Hx, lookup_insert_eq.
  - rewrite filter_cons_False by done.
    destruct (last (filter _ l)); [done|].
    by rewrite lookup_insert_ne.
Qed.

(** X1.  In the command built by [commandFromREProto], a name of the
    environment, or of the platform, has the value of the last entry of
    that name in the wire message, and no value when the message has no
    such entry; a message without platform gives the empty platform. *)
Theorem commandFromREProto_last_entry_wins (cmdPb : pbCommand)
    (name : string) :
  isEnvironmentVariables (cInputSpec (commandFromREProto cmdPb)) !! name
    = snd <$> last (filter (fun ev => fst ev = name)
                      (EnvironmentVariables cmdPb)) /\
  cPlatform (commandFromREProto cmdPb) !! name
    = snd <$> last (filter (fun pt => fst pt = name)
                      (default [] (Platform cmdPb))).
Proof.
  unfold commandFromREProto.
  cbn [cInputSpec isEnvironmentVariables cPlatform].
  rewrite !foldl_insert_lookup, !lookup_empty.
  split; by destruct (last _).
Qed.

End CommandProps.

(** ** tool: what is only looked at *)

Section ReadOnlyProps.
Import Tool.
Variable env : Env.

Lemma only_getActionResult (P : Eff -> Prop) (actionDigest : string) :
  (forall d, P (CheckActionCache d)) ->
  only P (getActionResult env actionDigest).
Proof.
  intros HP. unfold getActionResult. apply only_ebind; [exact I|].
  intros acDg. cbv zeta. apply only_ebind; [by apply only_perform|].
  intros [resPb|]; exact I.
Qed.

Lemma only_flattenTree (P : Eff -> Prop) (t : Tree) :
  (forall keys, P (MapRange keys)) -> only P (flattenTree env t).
Proof.
  intros HP. unfold flattenTree. apply only_ebind; [exact I|].
  intros outputs. apply only_bind; [by apply only_perform|].
  intros order. exact I.
Qed.

Lemma only_getInputTree (P : Eff -> Prop) (root : option pbDigest) :
  (forall keys, P (MapRange keys)) ->
  (forall r, P (GetDirectoryTree r)) ->
  only P (getInputTree env root).
Proof.
  intros HP1 HP2. unfold getInputTree. apply only_ebind; [exact I|].
  intros dg. cbv zeta. apply only_ebind; [by apply only_perform|].
  intros [|dirs0 dirs]; [exact I|].
  apply only_ebind; [by apply only_flattenTree|]. intros flat. exact I.
Qed.

Lemma only_getOutputs (P : Eff -> Prop) (actionRes : ActionResult) :
  (forall keys, P (MapRange keys)) ->
  (forall dg, P (ReadProto KTree dg)) ->
  only P (getOutputs env actionRes).
Proof.
  intros HP1 HP2. unfold getOutputs. cbv zeta. apply only_ebind.
  { apply only_foldM. intros res of_. apply only_ebind; [exact I|].
    intros dg. exact I. }
  intros res. apply only_ebind; [|intros res'; exact I].
  apply only_foldM. intros res' od. apply only_ebind; [exact I|].
  intros dg. apply only_ebind; [by apply only_perform|].
  intros outDirTree. apply only_ebind; [by apply only_flattenTree|].
  intros flat. exact I.
Qed.

Lemma only_ShowAction (P : Eff -> Prop) (actionDigest : string) :
  (forall d, P (CheckActionCache d)) ->
  (forall k dg, P (ReadProto k dg)) ->
  (forall r, P (GetDirectoryTree r)) ->
  (forall keys, P (MapRange keys)) ->
  (forall fmt args, P (LogInfof fmt args)) ->
  only P (ShowAction env actionDigest).
Proof.
  intros H1 H2 H3 H4 H5. unfold ShowAction. cbv zeta.
  apply only_ebind; [by apply only_getActionResult|]. intros resPb.
  apply only_ebind; [exact I|]. intros acDg.
  apply only_ebind; [by apply only_perform|]. intros actionProto.
  apply only_ebind; [exact I|]. intros cmdDg.
  apply only_bind; [by apply only_perform|]. intros _.
  apply only_ebind; [by apply only_perform|]. intros commandProto.
  apply only_bind; [by apply only_perform|]. intros _.
  apply only_ebind; [by apply only_getInputTree|]. intros tree.
  apply only_bind; [by apply only_perform|]. intros _.
  apply only_ebind; [by apply only_getOutputs|]. intros outs. exact I.
Qed.

Lemma osHandler_readOnly {S} (oracle : Handler (OsWorld S)) (e : Eff)
    (w : OsWorld S) :
  readOnly e -> fs (snd (osHandler oracle e w)) = fs w.
Proof. intros [H1 H2]. by destruct e. Qed.

Lemma readOnly_fs {A S} (oracle : Handler (OsWorld S)) (p : Prog A) :
  only readOnly p ->
  forall w, fs (final (exec (osHandler oracle) p w)) = fs w.
Proof.
  induction p as [a|e k IH]; intros Hp w; [done|].
  destruct Hp as [He Hk]. cbn [exec final fst snd].
  change (fs (final (exec (osHandler oracle)
                       (k (fst (osHandler oracle e w)))
                       (snd (osHandler oracle e w)))) = fs w).
  rewrite IH by apply Hk. by apply osHandler_readOnly.
Qed.

(** X2.  [ShowAction] only looks: in every run, under any answers, none of
    its steps is an os call or a client call that writes to disk, and the
    local file system is after it as it was before. *)
Theorem ShowAction_read_only {W S} (h : Handler W) (w : W)
    (oracle : Handler (OsWorld S)) (ws : OsWorld S) (actionDigest : string) :
  Forall (fun s => readOnly (ev s))
    (events (exec h (ShowAction env actionDigest) w)) /\
  fs (final (exec (osHandler oracle) (ShowAction env actionDigest) ws))
    = fs ws.
Proof.
  assert (Hro : only readOnly (ShowAction env actionDigest))
    by (apply only_ShowAction; by intros).
  split; [by apply only_events | by apply readOnly_fs].
Qed.

(** X3.  When the action result cannot be had (the digest is malformed, the
    cache call fails, or the cache has no result for the action),
    [DownloadActionResult] and [ShowAction] return that error having done
    nothing but the look-up in the cache: the destination is not cleaned
    and the file system stays as it was. *)
Theorem no_action_result_nothing_done {S} (oracle : Handler (OsWorld S))
    (w : OsWorld S) (actionDigest pathPrefix : string) (e : error) :
  result (exec (osHandler oracle) (getActionResult env actionDigest) w)
    = Err e ->
  result (exec (osHandler oracle)
            (DownloadActionResult env actionDigest pathPrefix) w) = Err e /\
  Forall isCacheLookup
    (effects (events (exec (osHandler oracle)
                        (DownloadActionResult env actionDigest pathPrefix)
                        w))) /\
  fs (final (exec (osHandler oracle)
               (DownloadActionResult env actionDigest pathPrefix) w))
    = fs w /\
  result (exec (osHandler oracle) (ShowAction env actionDigest) w) = Err e /\
  Forall isCacheLookup
    (effects (events (exec (osHandler oracle) (ShowAction env actionDigest)
                        w))).
Proof.
  intros Hget.
  assert (Hlook : Forall isCacheLookup
            (effects (events (exec (osHandler oracle)
                                (getActionResult env actionDigest) w)))).
  { unfold effects. rewrite Forall_map.
    apply only_events, only_getActionResult. by intros. }
  assert (Hfs : fs (final (exec (osHandler oracle)
                             (getActionResult env actionDigest) w)) = fs w).
  { apply readOnly_fs, only_getActionResult. by intros. }
  unfold DownloadActionResult, ShowAction. cbv zeta.
  rewrite !(exec_ebind_Err _ _ _ _ _ Hget). done.
Qed.

End ReadOnlyProps.

(** ** tool: the temporary file of [DownloadBlob] *)

Section TempFileProps.
Import Tool.
Variable env : Env.
Context {W : Type}.
Variable h : Handler W.

(** X4.  [DownloadBlob] with an empty path, once its temporary file is made:
    when the file closes without error, the removing of that file is the
    last step of the run, however the run ends (malformed digest, failed
    download, failed reading back, or success); when the closing fails,
    that error is returned and the file is never removed. *)
Theorem DownloadBlob_temp_file_removed (w : W) (blobDigest name : string) :
  (forall dir pattern w', fst (h (TempFile dir pattern) w') = OK name) ->
  match closeAnswers (events (exec h (DownloadBlob env blobDigest "") w)) with
  | [None] =>
      ev <$> last (events (exec h (DownloadBlob env blobDigest "") w))
        = Some (OsRemove name)
  | [Some e] =>
      result (exec h (DownloadBlob env blobDigest "") w) = Err e /\
      OsRemove name
        ∉ effects (events (exec h (DownloadBlob env blobDigest "") w))
  | _ => False
  end.
Proof.
  intros Hname. unfold DownloadBlob, events, effects.
  cbn [String.eqb exec bind ebind perform steps result final fst snd map
       negb].
  rewrite Hname.
  cbn [exec bind ebind perform steps result final fst snd map ofErr].
  destruct (fst (h (FileClose name) _)) as [e|].
  - cbn [exec bind ebind perform steps result final fst snd map ofErr
         closeAnswers omap list_omap ev resp].
    split; [done|].
    intros Hin. repeat (apply elem_of_cons in Hin as [Hin|Hin]; [done|]).
    by apply elem_of_nil in Hin.
  - cbn [exec bind ebind perform steps result final fst snd map ofErr].
    destruct (NewFromString env blobDigest) as [dg|e].
    + cbn [exec bind ebind perform steps result final fst snd map ofErr
           negb].
      destruct (fst (h (ReadBlobToFile dg name) _)) as [n|e].
      * cbn [exec bind ebind perform steps result final fst snd map ofErr].
        destruct (fst (h (ReadFile name) _)) as [contents|e];
          cbn [exec bind ebind perform steps result final fst snd map
               closeAnswers omap list_omap ev resp];
          done.
      * cbn [exec bind ebind perform steps result final fst snd map
             closeAnswers omap list_omap ev resp].
        done.
    + cbn [exec bind ebind perform steps result final fst snd map
           closeAnswers omap list_omap ev resp].
      done.
Qed.

End TempFileProps.

(** ** flags: the certificates and the options of the dial *)

Section DialProps.
Import Flags.
Variable env : Env.
Variable fl : FlagValues.

Lemma omap_none {X Y} (f : X -> option Y) (l : list X) :
  Forall (fun x => f x = None) l -> omap f l = [].
Proof.
  induction 1 as [|x l Hx _ IH]; [done|]. cbn [omap list_omap].
  by rewrite Hx.
Qed.

Lemma mapRange_silent (evs : list Event) :
  Forall (fun s => isMapRange (ev s)) evs ->
  readFileAnswers evs = [] /\ dials evs = [].
Proof.
  intros H. split; apply omap_none; eapply Forall_impl; try exact H;
    intros [e r]; by destruct e.
Qed.

Ltac wpstep := cbn [wp bind ebind perform negb].

Ltac histstep :=
  unfold readFileAnswers, dials; rewrite !omap_app;
  match goal with
  | Hr : readFileAnswers ?evs = [], Hd : dials ?evs = [] |- _ =>
      fold (readFileAnswers evs); fold (dials evs); rewrite ?Hr, ?Hd
  end;
  cbn [omap list_omap ev resp app fst snd dpCertPool].

Lemma only_timeouts (opts : list Opt) :
  only isMapRange
    (if (0 <? size (RPCTimeouts fl))%nat
     then
       bind (perform (MapRange (map_to_list (DefaultRPCTimeouts env)).*1))
         (fun order =>
            bind (perform (MapRange (map_to_list (RPCTimeouts fl)).*1))
              (fun order0 =>
                 ebind
                   (Ret
                      (foldResult
                         (fun timeouts rpc =>
                            match RPCTimeouts fl !! rpc with
                            | Some s =>
                                match ParseDuration env s with
                                | OK d => OK (<[rpc := d]> timeouts)
                                | Err err => Err err
                                end
                            | None => OK timeouts
                            end) order0
                         (foldl
                            (fun timeouts rpc =>
                               match DefaultRPCTimeouts env !! rpc with
                               | Some d => <[rpc := d]> timeouts
                               | None => timeouts
                               end) ∅ order)))
                   (fun timeouts =>
                      Ret (OK (opts ++ [client_RPCTimeouts timeouts])))))
     else Ret (OK opts)).
Proof.
  destruct (0 <? size (RPCTimeouts fl))%nat; [|exact I].
  apply only_bind; [by apply only_perform|]. intros order.
  apply only_bind; [by apply only_perform|]. intros order0.
  apply only_ebind; [exact I|]. intros timeouts. exact I.
Qed.

(** X5.  The certificates of the dial.  With no CA file named, no file is
    read and the client is dialled with an empty pool.  With one named, only
    that file is read, and the client is dialled only if it could be read
    and certificates were found in it, with exactly these in the pool;
    otherwise an error is returned and no client is dialled. *)
Theorem NewClientFromFlags_cert_pool {W} (h : Handler W) (w : W)
    (opts : list Opt) :
  certPoolSpec env fl
    (events (exec h (NewClientFromFlags env fl opts) w))
    (result (exec h (NewClientFromFlags env fl opts) w)).
Proof.
  apply (wp_sound h anyAnswer _ (anyAnswer_answers h) (certPoolSpec env fl)
           [] w).
  unfold NewClientFromFlags. cbv zeta. apply wp_ebind.
  apply (wp_only _ isMapRange); [apply only_timeouts|].
  intros evs a Hevs. destruct (mapRange_silent evs Hevs) as [Hr Hd].
  rewrite app_nil_l. unfold certPoolSpec.
  destruct a as [opts'|e].
  - destruct (String.eqb (TLSCACert fl) "") eqn:Hca; wpstep.
    + intros r _. wpstep. histstep. split; [done|]. by repeat constructor.
    + intros [ca|e] _; wpstep.
      * destruct (certsFromPEM env ca) as [|c certs] eqn:Hcerts; wpstep.
        -- histstep. split; [|done]. by repeat constructor.
        -- intros r _. wpstep. histstep. split; [by repeat constructor|].
           exists ca. rewrite Hcerts. done.
      * histstep. split; [|done]. by repeat constructor.
  - rewrite Hr, Hd. destruct (String.eqb (TLSCACert fl) "").
    + split; [done|constructor].
    + split; [constructor|done].
Qed.

(** X6.  With no per-RPC timeout override, [NewClientFromFlags] passes no
    timeout option at all: every dial has the caller's options followed by
    the CAS concurrency and nothing else, so the defaults of the client are
    left alone; no map is walked; and with no CA file named the client is
    dialled, once. *)
Theorem NewClientFromFlags_no_overrides {W} (h : Handler W) (w : W)
    (opts : list Opt) :
  size (RPCTimeouts fl) = 0%nat ->
  plainOptsSpec fl opts (events (exec h (NewClientFromFlags env fl opts) w)).
Proof.
  intros Hsize.
  apply (wp_sound h anyAnswer _ (anyAnswer_answers h)
           (fun hist _ => plainOptsSpec fl opts hist) [] w).
  unfold NewClientFromFlags, plainOptsSpec, effects, dials. cbv zeta.
  rewrite Hsize. cbn [Nat.ltb Nat.leb].
  destruct (String.eqb (TLSCACert fl) "") eqn:Hca; wpstep.
  - intros r _. wpstep. cbn. split; [by repeat constructor|].
    split; [|done]. repeat constructor. by intros [].
  - apply String.eqb_neq in Hca.
    intros [ca|e] _; wpstep.
    + destruct (certsFromPEM env ca) as [|c certs]; wpstep.
      * cbn. split; [constructor|]. split; [|done].
        repeat constructor. by intros [].
      * intros r _. wpstep. cbn. split; [by repeat constructor|].
        split; [|done]. repeat constructor; by intros [].
    + cbn. split; [constructor|]. split; [|done].
      repeat constructor. by intros [].
Qed.

End DialProps.

(** ** tool: the run of [ReexecuteAction] *)

Section ReexecuteProps.
Import Tool.
Variable env : Env.
Context {W : Type}.
Variable h : Handler W.

Lemma flattenTree_paths_sorted (order : list string) :
  Sorted String.le
    (sortStrings (foldl (fun paths path => paths ++ [path]) [] order)).
Proof. apply Sorted_merge_sort. apply _. Qed.

(** X7.  The command [ReexecuteAction] runs, in every run and whatever the
    answers: at most one command is run, never accepting a cached result
    and with the outputs downloaded; its inputs are in lexicographic
    order; its timeout is the one of the action, converted, and zero when
    the action has none; and with an input root given it is run there, no
    directory having been downloaded. *)
Theorem ReexecuteAction_command (w : W) (actionDigest inputRoot : string) :
  runSpec env inputRoot
    (events (exec h (ReexecuteAction env actionDigest inputRoot) w)).
Proof.
  apply (wp_sound h anyAnswer _ (anyAnswer_answers h)
           (fun hist _ => runSpec env inputRoot hist) [] w).
  unfold ReexecuteAction, getInputTree, flattenTree. cbv zeta.
  wp_run.
  all: unfold runSpec, directoryDownloads, runs, actionsRead.
  all: cbn [app omap list_omap ev resp].
  all: cbn [cInputSpec Inputs fst snd ExecRoot cTimeout].
  all: repeat match goal with
              | H : (_ =? _)%string = true |- _ => apply String.eqb_eq in H
              | H : Timeout _ = _ |- _ => rewrite H
              end.
  all: repeat split; try done; try apply flattenTree_paths_sorted.
Qed.

(** X8.  With no input root given, [ReexecuteAction] runs a command only in
    a directory into which the client has, earlier in the same call,
    downloaded the input tree without error: after a failed download no
    command is run. *)
Theorem ReexecuteAction_runs_in_downloaded_tree
    (w : W) (actionDigest : string) :
  runsAfterDownload []
    (events (exec h (ReexecuteAction env actionDigest "") w)) = true.
Proof.
  apply (wp_sound h anyAnswer _ (anyAnswer_answers h)
           (fun hist _ => runsAfterDownload [] hist = true) [] w).
  unfold ReexecuteAction, getInputTree, flattenTree. cbv zeta.
  wp_run.
  all: cbn [app runsAfterDownload ev resp isSome ExecRoot existsb]; try done.
  all: repeat match goal with
              | H : ofErr ?r = _ |- _ => destruct r; try discriminate H; clear H
              end.
  all: cbn [app runsAfterDownload ev resp isSome ExecRoot existsb]; try done.
  all: by rewrite String.eqb_refl.
Qed.

(** X9.  What [ReexecuteAction] returns is the error of the result of the
    run, nil included, whatever the status of that result and whatever was
    written about it; when no command was run it returns an error. *)
Theorem ReexecuteAction_returns_run_error
    (w : W) (actionDigest inputRoot : string) :
  runResultSpec
    (events (exec h (ReexecuteAction env actionDigest inputRoot) w))
    (result (exec h (ReexecuteAction env actionDigest inputRoot) w)).
Proof.
  apply (wp_sound h anyAnswer _ (anyAnswer_answers h)
           (fun hist r => runResultSpec hist r) [] w).
  unfold ReexecuteAction, getInputTree, flattenTree. cbv zeta.
  wp_run.
  all: unfold runResultSpec, runResults.
  all: cbn [app omap list_omap ev resp isErr]; try done.
Qed.

End ReexecuteProps.

(** ** tool: the steps of [DownloadActionResult] and [DownloadDirectory] *)

Lemma readsAreWritten_app (a b : list Event) :
  readsAreWritten a = true -> readsAreWritten b = true ->
  readsAreWritten (a ++ b) = true.
Proof.
  intros Ha Hb. induction a as [|[e r] rest IH]; [done|].
  cbn [app readsAreWritten ev resp] in *.
  apply andb_prop in Ha as [Hhead Hrest].
  rewrite (IH Hrest), andb_true_r.
  destruct e; try done.
  destruct r as [bytes [err|]]; destruct rest as [|x [|y rest]]; done.
Qed.

Section DownloadProps.
Import Tool.
Local Open Scope prog_scope.
Variable env : Env.
Context {W : Type}.
Variable h : Handler W.

Lemma only_DownloadActionResult (actionDigest pathPrefix : string) :
  only (confinedTo env pathPrefix)
    (DownloadActionResult env actionDigest pathPrefix).
Proof.
  unfold DownloadActionResult. cbv zeta.
  apply only_ebind; [apply only_getActionResult; by intros|]. intros resPb.
  do 4 (apply only_bind; [by apply only_perform|]; intros _).
  apply only_bind; [by apply only_perform|]. intros err.
  apply only_bind.
  { destruct err; [by apply only_perform|exact I]. }
  intros _. apply only_bind; [by apply only_perform|]. intros order.
  apply only_bind; [|intros _; apply only_bind;
                      [by apply only_perform|intros _; exact I]].
  apply only_forEach. intros path.
  destruct (_ !! path) as [[reDg|]|] eqn:Hpath; try exact I.
  assert (Hwhere : path = filepathJoin env pathPrefix stdoutFile \/
                   path = filepathJoin env pathPrefix stderrFile).
  { destruct (decide (path = filepathJoin env pathPrefix stderrFile));
      [by right|].
    rewrite lookup_insert_ne in Hpath by done.
    destruct (decide (path = filepathJoin env pathPrefix stdoutFile));
      [by left|].
    by rewrite lookup_insert_ne, lookup_empty in Hpath. }
  cbv zeta. apply only_bind; [by apply only_perform|]. intros _.
  apply only_bind; [by apply only_perform|]. intros r.
  apply only_bind.
  { destruct (snd r); [by apply only_perform|exact I]. }
  intros _. apply only_bind; [by apply only_perform|].
  intros [werr|]; [by apply only_perform|exact I].
Qed.

(** X10.  [DownloadActionResult] stays in its destination: in every run,
    whatever the answers, it removes and creates only the destination
    directory, has the outputs downloaded only into it, and writes only
    the files [stdout] and [stderr] of it; no other step is an os call or
    a client call that writes to disk. *)
Theorem DownloadActionResult_stays_in_destination
    (w : W) (actionDigest pathPrefix : string) :
  Forall (confinedTo env pathPrefix)
    (effects (events (exec h
                        (DownloadActionResult env actionDigest pathPrefix)
                        w))).
Proof.
  unfold effects. rewrite Forall_map.
  apply only_events, only_DownloadActionResult.
Qed.

(** X11.  What [DownloadActionResult] reads of an output stream is what it
    writes: each read of a blob is followed by the writing of a file with
    exactly the bytes the read gave.  This holds also of a read that came
    with an error: the error is logged, and the file is written all the
    same, with whatever bytes came with the error. *)
Theorem DownloadActionResult_writes_what_it_reads
    (w : W) (actionDigest pathPrefix : string) :
  readsAreWritten
    (events (exec h (DownloadActionResult env actionDigest pathPrefix) w))
  = true.
Proof.
  apply (wp_sound h anyAnswer _ (anyAnswer_answers h)
           (fun hist _ => readsAreWritten hist = true) [] w).
  unfold DownloadActionResult, getActionResult. cbv zeta.
  wp_run; try done.
  all: apply wp_bind.
  all: eapply wp_mono;
    [|apply (wp_forEach _ _ (fun hist => readsAreWritten hist = true))].
  all: try done.
  all: try (intros hist u Hhist; wp_run; by apply readsAreWritten_app).
  all: intros path past Hpast; wp_run; try done.
  all: rewrite <- ?app_assoc; apply readsAreWritten_app; [done|].
  all: cbn [app readsAreWritten ev resp writesBytes isErrorLog andb].
  all: match goal with H : snd _ = _ |- _ => rewrite H end.
  all: by rewrite bool_decide_eq_true_2.
Qed.

(** X12.  [DownloadDirectory] ignores what the cleaning of the path
    answers: with a well-formed digest the client is asked for the
    directory exactly once, with that digest and that path, whether or not
    the removal and the creation of the path worked, and what is returned
    is the error of that download, nil included. *)
Theorem DownloadDirectory_returns_client_error
    (w : W) (rootDigest path : string) (dg : Digest) :
  NewFromString env rootDigest = OK dg ->
  match directoryDownloads
          (events (exec h (DownloadDirectory env rootDigest path) w)) with
  | [(d, p, r)] =>
      d = dg /\ p = path /\
      result (exec h (DownloadDirectory env rootDigest path) w) = ofErr r
  | _ => False
  end.
Proof.
  intros Hdg.
  apply (wp_sound h anyAnswer _ (anyAnswer_answers h)
           (fun hist res =>
              match directoryDownloads hist with
              | [(d, p, r)] => d = dg /\ p = path /\ res = ofErr r
              | _ => False
              end) [] w).
  unfold DownloadDirectory. rewrite Hdg. by wp_run.
Qed.




Lemma DownloadActionResult_streams (ok : Event -> Prop)
    (outMsgs : gmap string (option pbDigest)) (order : list string) :
  forall past,
    wp ok
      (forEach order (fun path =>
         match outMsgs !! path with
         | None | Some None => Ret tt
         | Some (Some reDg) =>
             let dg := {| Hash := pbHash reDg; Size := SizeBytes reDg |} in
             perform (LogInfof "Downloading stdout/stderr to %v."
                        [AVal (VString path)]) ;;;
             let! r := perform (ReadBlob dg) in
             let bytes := fst r in
             let err := snd r in
             match err with
             | Some _ =>
                 perform (LogErrorf
                            "Unable to read blob for %v with digest %v."
                            [AVal (VString path); AVal (VDigest dg)])
             | None => Ret tt
             end ;;;
             let! werr := perform (WriteFile path bytes 420) in
             match werr with
             | Some _ =>
                 perform (LogErrorf
                            "Unable to write output of digest %v to file %v."
                            [AVal (VDigest dg); AVal (VString path)])
             | None => Ret tt
             end
         end))
      (fun hist _ =>
         resultsFound hist = resultsFound past /\
         blobsRead hist = blobsRead past ++ (omap (streamAt outMsgs) order).*2 /\
         filesWritten hist
           = filesWritten past ++ (omap (streamAt outMsgs) order).*1)
      past.
Proof.
  induction order as [|path order IH]; intros past;
    cbn [forEach wp omap list_omap].
  { by rewrite !app_nil_r. }
  assert (Hs : streamAt outMsgs path
               = match outMsgs !! path with
                 | Some (Some reDg) =>
                     Some (path, {| Hash := pbHash reDg;
                                    Size := SizeBytes reDg |})
                 | _ => None
                 end) by done.
  rewrite !Hs. clear Hs.
  destruct (outMsgs !! path) as [[reDg|]|] eqn:Hpath; cbv zeta; wp_run.
  all: eapply wp_mono; [|apply IH].
  all: intros hist u (Hfound & Hblobs & Hfiles); cbn beta.
  all: rewrite Hfound, Hblobs, Hfiles.
  all: unfold resultsFound, blobsRead, filesWritten.
  all: rewrite ?omap_app; cbn [omap list_omap ev resp fmap list_fmap fst snd].
  all: by rewrite ?app_nil_r, <- ?app_assoc.
Qed.

Lemma streams_Permutation (pathPrefix : string) (resPb : ActionResult)
    (order : list string) :
  filepathJoin env pathPrefix stdoutFile
    <> filepathJoin env pathPrefix stderrFile ->
  order ≡ₚ (map_to_list
              (<[filepathJoin env pathPrefix stderrFile
                 := StderrDigest resPb]>
                 (<[filepathJoin env pathPrefix stdoutFile
                    := StdoutDigest resPb]> ∅))).*1 ->
  omap (streamAt
          (<[filepathJoin env pathPrefix stderrFile := StderrDigest resPb]>
             (<[filepathJoin env pathPrefix stdoutFile
                := StdoutDigest resPb]> ∅))) order
    ≡ₚ streamsOf env pathPrefix resPb.
Proof.
  intros Hpaths ->.
  rewrite map_to_list_insert
    by (by rewrite lookup_insert_ne, lookup_empty).
  rewrite map_to_list_insert by apply lookup_empty.
  rewrite map_to_list_empty. cbn [fmap list_fmap fst omap list_omap].
  unfold streamAt, streamsOf.
  rewrite lookup_insert_eq, lookup_insert_ne, lookup_insert_eq by done.
  cbn [omap list_omap fst snd].
  destruct (StdoutDigest resPb), (StderrDigest resPb);
    cbn [fmap option_fmap option_map]; try done.
  apply Permutation_swap.
Qed.

(** X14.  [DownloadActionResult] fetches every output stream that the
    result names, once: when the runtime walks the map of the streams as
    Go does and the two stream files are different paths, the blobs read
    are the digests of the streams the result names and the files written
    are their files, each once, in some order; without a result from the
    cache no blob is read and no file written. *)
Theorem DownloadActionResult_fetches_each_stream
    (w : W) (actionDigest pathPrefix : string) :
  fairRange h ->
  filepathJoin env pathPrefix stdoutFile
    <> filepathJoin env pathPrefix stderrFile ->
  streamsSpec env pathPrefix
    (events (exec h (DownloadActionResult env actionDigest pathPrefix) w)).
Proof.
  intros Hfair Hpaths.
  apply (wp_sound h fairAnswer _ (fairRange_answers h Hfair)
           (fun hist _ => streamsSpec env pathPrefix hist) [] w).
  unfold DownloadActionResult, getActionResult. cbv zeta.
  wp_run; try done.
  all: apply wp_bind.
  all: eapply wp_mono; [|apply DownloadActionResult_streams].
  all: intros hist u (Hfound & Hblobs & Hfiles); wp_run.
  all: unfold streamsSpec, resultsFound, blobsRead, filesWritten in *.
  all: rewrite !omap_app, Hfound, Hblobs, Hfiles.
  all: rewrite ?omap_app; cbn [omap list_omap ev resp app].
  all: rewrite !app_nil_r.
  all: match goal with
       | H : fairAnswer {| ev := MapRange _; resp := _ |} |- _ =>
           pose proof (streams_Permutation _ _ _ Hpaths H) as Hperm
       end.
  all: by rewrite Hperm.
Qed.

End DownloadProps.

(** ** The further properties at the examples *)

(** No result in the cache for a well-formed digest: nothing is cleaned. *)
Lemma no_action_result_nothing_done_witness :
  let e := Errorf "action digest %v not found in cache"
             [VPbDigest (Some {| pbHash := Examples.hashA;
                                 SizeBytes := 10 |})] in
  let download :=
    exec (osHandler MoreExamples.missRemote)
      (Tool.DownloadActionResult Examples.env Examples.goodDigest "/out")
      Examples.oldWorld in
  let shown :=
    exec (osHandler MoreExamples.missRemote)
      (Tool.ShowAction Examples.env Examples.goodDigest) Examples.oldWorld in
  result download = Err e /\
  Forall isCacheLookup (effects (events download)) /\
  fs (final download) = Examples.oldFs /\
  result shown = Err e /\
  Forall isCacheLookup (effects (events shown)).
Proof.
  apply (no_action_result_nothing_done Examples.env MoreExamples.missRemote
           Examples.oldWorld Examples.goodDigest "/out").
  vm_compute. reflexivity.
Defined.

(** The download fails and the temporary file is removed all the same. *)
Lemma DownloadBlob_temp_file_removed_witness :
  result (exec Examples.failingRemote
            (Tool.DownloadBlob Examples.env Examples.goodDigest "")
            Examples.oldWorld) = Err (Failure "unavailable") /\
  ev <$> last (events (exec Examples.failingRemote
                         (Tool.DownloadBlob Examples.env Examples.goodDigest
                            "")
                         Examples.oldWorld))
    = Some (OsRemove "/tmp/blob0").
Proof.
  split; [by vm_compute|].
  apply (DownloadBlob_temp_file_removed Examples.env Examples.failingRemote
           Examples.oldWorld Examples.goodDigest "/tmp/blob0").
  intros dir pattern w'. reflexivity.
Defined.

Lemma NewClientFromFlags_no_overrides_witness :
  plainOptsSpec MoreExamples.plainFlagValues []
    (events (exec Examples.failingRemote
               (Flags.NewClientFromFlags Examples.flagEnv
                  MoreExamples.plainFlagValues [])
               Examples.oldWorld)).
Proof.
  apply (NewClientFromFlags_no_overrides Examples.flagEnv
           MoreExamples.plainFlagValues Examples.failingRemote
           Examples.oldWorld []).
  by vm_compute.
Defined.

(** The client fails to download the directory, and that is the error
    returned. *)
Lemma DownloadDirectory_returns_client_error_witness :
  directoryDownloads
    (events (exec Examples.failingRemote
               (Tool.DownloadDirectory Examples.env Examples.goodDigest
                  "/out")
               Examples.oldWorld))
    = [(Examples.digestA, "/out", Some (Failure "unavailable"))] /\
  match directoryDownloads
          (events (exec Examples.failingRemote
                     (Tool.DownloadDirectory Examples.env Examples.goodDigest
                        "/out")
                     Examples.oldWorld)) with
  | [(d, p, r)] =>
      d = Examples.digestA /\ p = "/out" /\
      result (exec Examples.failingRemote
                (Tool.DownloadDirectory Examples.env Examples.goodDigest
                   "/out")
                Examples.oldWorld) = ofErr r
  | _ => False
  end.
Proof.
  split; [by vm_compute|].
  apply (DownloadDirectory_returns_client_error Examples.env
           Examples.failingRemote Examples.oldWorld Examples.goodDigest
           "/out" Examples.digestA).
  by vm_compute.
Defined.

(** The result names a stdout stream and no stderr stream: the one blob is
    read and the one file written. *)
Lemma DownloadActionResult_fetches_each_stream_witness :
  blobsRead
    (events (exec Examples.failingRemote
               (Tool.DownloadActionResult Examples.env Examples.goodDigest
                  "/out")
               Examples.oldWorld)) = [Examples.digestA] /\
  filesWritten
    (events (exec Examples.failingRemote
               (Tool.DownloadActionResult Examples.env Examples.goodDigest
                  "/out")
               Examples.oldWorld)) = ["/out/stdout"] /\
  streamsSpec Examples.env "/out"
    (events (exec Examples.failingRemote
               (Tool.DownloadActionResult Examples.env Examples.goodDigest
                  "/out")
               Examples.oldWorld)).
Proof.
  split; [by vm_compute|]. split; [by vm_compute|].
  apply (DownloadActionResult_fetches_each_stream Examples.env
           Examples.failingRemote Examples.oldWorld Examples.goodDigest
           "/out").
  - apply failingRemote_fair.
  - by vm_compute.
Defined.
